(** * ScrapBindings: the [Mousetrap] key-sequence matcher

    A shallow embedding of the [Mousetrap] class of [mod.ts] (latest
    revision: per-sequence [bind], normalising [unbind], [isComposing]
    guard) together with the host facilities it touches: the timer queue
    behind [setTimeout]/[clearTimeout], the listener registration and the
    logger.  The key-notation library ([parseSequence], [normalize],
    [stringify]) is not part of the repository sources and is taken as an
    interface.

    Modelling conventions.
    - JavaScript [Map] and [Set] are insertion ordered; they are lists here
      (the order is observable through [logger.debug]).
    - A [Command] is a user callback.  Its only behaviour the matcher can
      observe is whether the call returns or throws, so a command is a
      function from the event to an [Outcome]; every call is recorded in
      the effect log.  Commands are assumed not to call back into the
      matcher, and the [onSequenceUpdate] callback is assumed not to throw.
    - Methods run in a state-and-exception monad [Eff] over a [World]
      (the object's fields and the host). *)

From Stdlib Require Import List String Ascii Bool Arith ZArith Lia.
Import ListNotations.
Local Open Scope string_scope.
Local Open Scope list_scope.

(* ================================================================= *)
(** ** Strings *)

(** [key.startsWith(sequence)] *)
Definition startsWith (s searchString : string) : bool :=
  String.prefix searchString s.

(** Truthiness of a string: [!s] holds exactly for the empty string. *)
Definition falsy (s : string) : bool :=
  match s with
  | EmptyString => true
  | String _ _ => false
  end.

(* ================================================================= *)
(** ** JavaScript containers *)

Module JSMap.

Definition t (V : Type) : Type := list (string * V).

Section Ops.
Context {V : Type}.

Definition empty : t V := [].

Fixpoint get (k : string) (m : t V) : option V :=
  match m with
  | [] => None
  | (k', v) :: m' => if String.eqb k' k then Some v else get k m'
  end.

(** [set] keeps the position of a key that is already present. *)
Fixpoint set (k : string) (v : V) (m : t V) : t V :=
  match m with
  | [] => [(k, v)]
  | (k', v') :: m' =>
      if String.eqb k' k then (k', v) :: m' else (k', v') :: set k v m'
  end.

Definition delete (k : string) (m : t V) : t V :=
  filter (fun kv => negb (String.eqb (fst kv) k)) m.

Definition keys (m : t V) : list string := map fst m.

Definition size (m : t V) : nat := List.length m.
End Ops.

End JSMap.

Module JSSet.

Definition t : Type := list string.

Definition has (k : string) (s : t) : bool := existsb (String.eqb k) s.

Definition add (k : string) (s : t) : t :=
  if has k s then s else s ++ [k].

Definition delete (k : string) (s : t) : t :=
  filter (fun x => negb (String.eqb x k)) s.

Definition size (s : t) : nat := List.length s.

(** [new Set(iterable)] *)
Definition of_iterable (l : list string) : t :=
  fold_left (fun s k => add k s) l [].

End JSSet.

(* ================================================================= *)
(** ** Events, commands and the key-notation interface *)

Record KeyboardEvent : Type := {
  isTrusted : bool;
  isComposing : bool;
  key : string;
  ctrlKey : bool;
  shiftKey : bool;
  altKey : bool;
  metaKey : bool
}.

Inductive Outcome : Type :=
| Returns
| Throws (error : string).

(** [type Command = (e: KeyboardEvent) => void] *)
Definition Command : Type := KeyboardEvent -> Outcome.

Inductive Result (T E : Type) : Type :=
| Ok (value : T)
| Err (value : E).
Arguments Ok {T E} value.
Arguments Err {T E} value.

(** The errors of [normalize]. *)
Inductive KeyError : Type :=
| InvalidKeyError (message : string)
| DisallowedModifierError (message : string)
| DuplicateModifierError (message : string)
| UnknownModifierError (message : string).

Inductive BindingError : Type :=
| InvalidSequenceError
| OfKeyError (e : KeyError).

Definition message (e : BindingError) : string :=
  match e with
  | InvalidSequenceError => "cannot parse the sequence"
  | OfKeyError (InvalidKeyError m) => m
  | OfKeyError (DisallowedModifierError m) => m
  | OfKeyError (DuplicateModifierError m) => m
  | OfKeyError (UnknownModifierError m) => m
  end.

(** The imported library [deps/vim-like-key-notation.ts].
    [parseSequence] answers [None] for [undefined]; [stringify] answers
    the empty string for an event it cannot write. *)
Class KeyNotation : Type := {
  Key : Type;
  parseSequence : string -> option (list Key);
  normalize : Key -> Result string KeyError;
  stringify : KeyboardEvent -> string
}.

(* ================================================================= *)
(** ** The object, the host and the effect log *)

(** The closure [bestMatchCommand]: its captured [key], [command], [e]. *)
Record BestMatch : Type := {
  bm_key : string;
  bm_command : Command;
  bm_event : KeyboardEvent
}.

(** What a timer was armed with:
    [this.prevBestMatchCommand ?? this.backToInitial]. *)
Inductive TimerHandler : Type :=
| HBestMatch (bm : BestMatch)
| HBackToInitial.

Inductive DebugMessage : Type :=
| DbgSequence (sequence : string)
| DbgCandidates (size : nat) (candidates : list string)
| DbgRun (k : string)
| DbgReset
| DbgBinded (sequences : list string).

Inductive Effect : Type :=
| Invoke (command : Command) (e : KeyboardEvent)
| LoggerError (msg : string)
| LoggerDebug (msg : DebugMessage)
| SequenceUpdate (sequence : string)
| PreventDefault (e : KeyboardEvent)
| StopPropagation (e : KeyboardEvent).

Record MousetrapOptions : Type := {
  opt_onSequenceUpdate : bool;
  opt_flushInterval : option Z
}.

(** The private fields of the class.  [onSequenceUpdate] records whether a
    callback was supplied; its calls appear as [SequenceUpdate] effects. *)
Record Mousetrap : Type := {
  onSequenceUpdate : bool;
  flushInterval : Z;
  bindings : JSMap.t Command;
  _sequence : string;
  prevBestMatchCommand : option BestMatch;
  filtered : JSSet.t;
  timer : option nat
}.

Record Timer : Type := {
  timer_id : nat;
  timer_handler : TimerHandler;
  timer_delay : Z
}.

(** The host: the timers that are armed and have neither fired nor been
    cleared, the id the next [setTimeout] returns, whether [handleKeydown]
    is registered on the target, and the effect log, most recent first. *)
Record Host : Type := {
  timers : list Timer;
  nextTimerId : nat;
  listening : bool;
  log : list Effect
}.

Record World : Type := {
  this : Mousetrap;
  host : Host
}.

Definition with_bindings (b : JSMap.t Command) (m : Mousetrap) : Mousetrap :=
  {| onSequenceUpdate := onSequenceUpdate m; flushInterval := flushInterval m;
     bindings := b; _sequence := _sequence m;
     prevBestMatchCommand := prevBestMatchCommand m;
     filtered := filtered m; timer := timer m |}.

Definition with_sequence (s : string) (m : Mousetrap) : Mousetrap :=
  {| onSequenceUpdate := onSequenceUpdate m; flushInterval := flushInterval m;
     bindings := bindings m; _sequence := s;
     prevBestMatchCommand := prevBestMatchCommand m;
     filtered := filtered m; timer := timer m |}.

Definition with_prevBestMatchCommand (p : option BestMatch) (m : Mousetrap)
  : Mousetrap :=
  {| onSequenceUpdate := onSequenceUpdate m; flushInterval := flushInterval m;
     bindings := bindings m; _sequence := _sequence m;
     prevBestMatchCommand := p;
     filtered := filtered m; timer := timer m |}.

Definition with_filtered (f : JSSet.t) (m : Mousetrap) : Mousetrap :=
  {| onSequenceUpdate := onSequenceUpdate m; flushInterval := flushInterval m;
     bindings := bindings m; _sequence := _sequence m;
     prevBestMatchCommand := prevBestMatchCommand m;
     filtered := f; timer := timer m |}.

Definition with_timer (t : option nat) (m : Mousetrap) : Mousetrap :=
  {| onSequenceUpdate := onSequenceUpdate m; flushInterval := flushInterval m;
     bindings := bindings m; _sequence := _sequence m;
     prevBestMatchCommand := prevBestMatchCommand m;
     filtered := filtered m; timer := t |}.

Definition with_timers (ts : list Timer) (h : Host) : Host :=
  {| timers := ts; nextTimerId := nextTimerId h;
     listening := listening h; log := log h |}.

Definition with_nextTimerId (n : nat) (h : Host) : Host :=
  {| timers := timers h; nextTimerId := n;
     listening := listening h; log := log h |}.

Definition with_listening (b : bool) (h : Host) : Host :=
  {| timers := timers h; nextTimerId := nextTimerId h;
     listening := b; log := log h |}.

Definition with_log (l : list Effect) (h : Host) : Host :=
  {| timers := timers h; nextTimerId := nextTimerId h;
     listening := listening h; log := l |}.

(* ================================================================= *)
(** ** The monad of methods *)

(** How a call ends.  [Exhausted] is the call that ran out of recursion
    budget (see [handleKeydown]); it is not a JavaScript exception and no
    [catch] sees it. *)
Inductive Completion (A : Type) : Type :=
| Normal (a : A)
| Throw (error : string)
| Exhausted.
Arguments Normal {A} a.
Arguments Throw {A} error.
Arguments Exhausted {A}.

Definition Eff (A : Type) : Type := World -> Completion A * World.

Definition ret {A} (a : A) : Eff A := fun w => (Normal a, w).

Definition bind_eff {A B} (c : Eff A) (k : A -> Eff B) : Eff B :=
  fun w =>
    match c w with
    | (Normal a, w') => k a w'
    | (Throw error, w') => (Throw error, w')
    | (Exhausted, w') => (Exhausted, w')
    end.

Declare Scope eff_scope.
Delimit Scope eff_scope with eff.
Notation "x <- c1 ;; c2" := (bind_eff c1 (fun x => c2))
  (at level 61, c1 at next level, right associativity) : eff_scope.
Notation "' pat <- c1 ;; c2" := (bind_eff c1 (fun x => match x with pat => c2 end))
  (at level 61, pat pattern, c1 at next level, right associativity) : eff_scope.
Notation "c1 ;; c2" := (bind_eff c1 (fun _ => c2))
  (at level 61, right associativity) : eff_scope.
Local Open Scope eff_scope.

Definition gets {A} (f : Mousetrap -> A) : Eff A :=
  fun w => (Normal (f (this w)), w).

Definition modify (f : Mousetrap -> Mousetrap) : Eff unit :=
  fun w => (Normal tt, {| this := f (this w); host := host w |}).

Definition gets_host {A} (f : Host -> A) : Eff A :=
  fun w => (Normal (f (host w)), w).

Definition modify_host (f : Host -> Host) : Eff unit :=
  fun w => (Normal tt, {| this := this w; host := f (host w) |}).

Definition emit (x : Effect) : Eff unit :=
  modify_host (fun h => with_log (x :: log h) h).

Definition when (b : bool) (c : Eff unit) : Eff unit :=
  if b then c else ret tt.

(** [for (const x of xs) body], threading the loop's local variables. *)
Fixpoint forOf {A S} (xs : list A) (body : A -> S -> Eff S) (s : S) : Eff S :=
  match xs with
  | [] => ret s
  | x :: xs' => s' <- body x s ;; forOf xs' body s'
  end.

(** [try { body } catch (error) { handler(error) } finally { finalizer }] *)
Definition try_catch_finally (body : Eff unit) (handler : string -> Eff unit)
    (finalizer : Eff unit) : Eff unit :=
  fun w =>
    match body w with
    | (Exhausted, w1) => (Exhausted, w1)
    | (r1, w1) =>
        let '(r2, w2) :=
          match r1 with
          | Throw error => handler error w1
          | _ => (Normal tt, w1)
          end in
        match finalizer w2 with
        | (Normal _, w3) => (r2, w3)
        | (r3, w3) => (r3, w3)
        end
    end.

(* ================================================================= *)
(** ** Host primitives *)

(** [clearTimeout(id)]: a no-op for [undefined] and for an id that already
    fired or was cleared. *)
Definition clearTimeout (id : option nat) : Eff unit :=
  match id with
  | None => ret tt
  | Some n =>
      modify_host (fun h =>
        with_timers
          (filter (fun t => negb (Nat.eqb (timer_id t) n)) (timers h)) h)
  end.

(** [setTimeout(handler, delay)] returns a fresh id. *)
Definition setTimeout (handler : TimerHandler) (delay : Z) : Eff nat :=
  n <- gets_host nextTimerId ;;
  modify_host (fun h =>
    with_nextTimerId (S n)
      (with_timers
         (timers h ++
          [{| timer_id := n; timer_handler := handler; timer_delay := delay |}])
         h)) ;;
  ret n.

(** The listener is always the same function object [this.handleKeydown],
    so registering twice is registering once. *)
Definition addEventListener : Eff unit :=
  modify_host (with_listening true).

Definition removeEventListener : Eff unit :=
  modify_host (with_listening false).

Definition logger_debug (m : DebugMessage) : Eff unit := emit (LoggerDebug m).

Definition logger_error (m : string) : Eff unit := emit (LoggerError m).

(** Calling a user command: the call is logged, then it returns or throws. *)
Definition call (command : Command) (e : KeyboardEvent) : Eff unit :=
  fun w =>
    let w' := {| this := this w;
                 host := with_log (Invoke command e :: log (host w)) (host w) |} in
    match command e with
    | Returns => (Normal tt, w')
    | Throws error => (Throw error, w')
    end.

(* ================================================================= *)
(** ** The class [Mousetrap] *)

(** [constructor(target, options?)] with the field initialisers. *)
Definition new_Mousetrap (options : option MousetrapOptions) : Mousetrap :=
  {| onSequenceUpdate :=
       match options with
       | Some o => opt_onSequenceUpdate o
       | None => false
       end;
     flushInterval :=
       match options with
       | Some {| opt_flushInterval := Some ms |} => ms
       | _ => 1000%Z
       end;
     bindings := JSMap.empty;
     _sequence := "";
     prevBestMatchCommand := None;
     filtered := [];
     timer := None |}.

(** A target on which nothing is registered and no timer is armed. *)
Definition new_Host : Host :=
  {| timers := []; nextTimerId := 0; listening := false; log := [] |}.

Definition new_World (options : option MousetrapOptions) : World :=
  {| this := new_Mousetrap options; host := new_Host |}.

(** [set currentSequence(sequence)] *)
Definition set_currentSequence (sequence : string) : Eff unit :=
  old <- gets _sequence ;;
  let changed := negb (String.eqb old sequence) in
  modify (with_sequence sequence) ;;
  notify <- gets onSequenceUpdate ;;
  when (changed && notify) (emit (SequenceUpdate sequence)).

(** [get currentSequence()] *)
Definition currentSequence : Eff string := gets _sequence.

Definition backToInitial : Eff unit :=
  id <- gets timer ;;
  clearTimeout id ;;
  set_currentSequence "" ;;
  modify (with_prevBestMatchCommand None) ;;
  b <- gets bindings ;;
  modify (with_filtered (JSSet.of_iterable (JSMap.keys b))) ;;
  logger_debug DbgReset.

(** The body of the closure [bestMatchCommand]. *)
Definition runBestMatch (bm : BestMatch) : Eff unit :=
  logger_debug (DbgRun (bm_key bm)) ;;
  try_catch_finally
    (call (bm_command bm) (bm_event bm))
    (fun error => logger_error error)
    backToInitial.

(** [this.prevBestMatchCommand ?? this.backToInitial] *)
Definition orBackToInitial (prev : option BestMatch) : TimerHandler :=
  match prev with
  | Some bm => HBestMatch bm
  | None => HBackToInitial
  end.

Definition runHandler (h : TimerHandler) : Eff unit :=
  match h with
  | HBestMatch bm => runBestMatch bm
  | HBackToInitial => backToInitial
  end.

Section WithKeyNotation.

Context {KN : KeyNotation}.

Definition normalizeSequence (sequence : string)
  : Result string (list BindingError) :=
  match parseSequence sequence with
  | None => Err [InvalidSequenceError]
  | Some keys =>
      let '(normalizedSequence, errors) :=
        fold_left
          (fun '(acc, errors) k =>
             match normalize k with
             | Err e => (acc, errors ++ [OfKeyError e])
             | Ok v => ((acc ++ v)%string, errors)
             end)
          keys ("", []) in
      if (0 <? List.length errors)%nat then Err errors else Ok normalizedSequence
  end.

(** One turn of the loop [for (const key of this.filtered)] of
    [handleKeydown]; [best] is the local [bestMatchCommand]. *)
Definition narrow (e : KeyboardEvent) (k : string) (best : option BestMatch)
  : Eff (option BestMatch) :=
  sequence <- currentSequence ;;
  when (negb (startsWith k sequence))
       (f <- gets filtered ;; modify (with_filtered (JSSet.delete k f))) ;;
  if negb (String.eqb sequence k) then ret best
  else
    b <- gets bindings ;;
    match JSMap.get k b with
    | None =>
        f <- gets filtered ;; modify (with_filtered (JSSet.delete k f)) ;;
        ret best
    | Some command =>
        ret (Some {| bm_key := k; bm_command := command; bm_event := e |})
    end.

(** [handleKeydown].  [depth] bounds the nesting of the recursive call. *)
Fixpoint handleKeydown (depth : nat) (e : KeyboardEvent) : Eff unit :=
  match depth with
  | O => fun w => (Exhausted, w)
  | S depth' =>
      if negb (isTrusted e) then ret tt
      else
        let vimKey := stringify e in
        if falsy vimKey then ret tt
        else
          id <- gets timer ;;
          clearTimeout id ;;
          if isComposing e then backToInitial
          else
            sequence <- currentSequence ;;
            set_currentSequence (sequence ++ vimKey)%string ;;
            sequence <- currentSequence ;;
            logger_debug (DbgSequence sequence) ;;
            candidates <- gets filtered ;;
            bestMatchCommand <- forOf candidates (narrow e) None ;;
            f <- gets filtered ;;
            let size := JSSet.size f in
            logger_debug (DbgCandidates size f) ;;
            when (0 <? size)%nat
                 (modify (with_prevBestMatchCommand bestMatchCommand)) ;;
            prev <- gets prevBestMatchCommand ;;
            match prev, (size <? 2)%nat with
            | Some bm, true =>
                runBestMatch bm ;;
                if (size =? 0)%nat then handleKeydown depth' e else ret tt
            | _, _ =>
                if (size =? 0)%nat then backToInitial
                else
                  emit (PreventDefault e) ;;
                  emit (StopPropagation e) ;;
                  prev <- gets prevBestMatchCommand ;;
                  ms <- gets flushInterval ;;
                  id <- setTimeout (orBackToInitial prev) ms ;;
                  modify (with_timer (Some id))
            end
  end.

Definition emitChange : Eff unit :=
  b <- gets bindings ;;
  if (JSMap.size b =? 0)%nat then
    backToInitial ;;
    removeEventListener
  else addEventListener.

(** One turn of the loop of [bind]; the locals are [errorMap] and
    [sequences]. *)
Definition bindOne (entry : string * Command)
    (locals : JSMap.t (list BindingError) * list string)
  : Eff (JSMap.t (list BindingError) * list string) :=
  let '(seq, cmd) := entry in
  let '(errorMap, sequences) := locals in
  match normalizeSequence seq with
  | Err errors =>
      forOf errors
        (fun error _ => logger_error (seq ++ ": " ++ message error)%string)
        tt ;;
      ret (JSMap.set seq errors errorMap, sequences)
  | Ok normalized =>
      b <- gets bindings ;;
      modify (with_bindings (JSMap.set normalized cmd b)) ;;
      sequence <- currentSequence ;;
      when (startsWith normalized sequence)
           (f <- gets filtered ;; modify (with_filtered (JSSet.add normalized f))) ;;
      ret (errorMap, sequences ++ [normalized])
  end.

(** [bind]: the three overloads all iterate over a list of entries
    (the entries of the map, of the object, or the single pair). *)
Definition bind (entries : list (string * Command))
  : Eff (JSMap.t (list BindingError)) :=
  '(errorMap, sequences) <- forOf entries bindOne (JSMap.empty, []) ;;
  logger_debug (DbgBinded sequences) ;;
  emitChange ;;
  ret errorMap.

Definition bind1 (sequence : string) (command : Command)
  : Eff (JSMap.t (list BindingError)) :=
  bind [(sequence, command)].

Definition unbindOne (sequence : string) (_ : unit) : Eff unit :=
  match normalizeSequence sequence with
  | Err _ => ret tt
  | Ok normalized =>
      b <- gets bindings ;;
      modify (with_bindings (JSMap.delete normalized b)) ;;
      f <- gets filtered ;;
      modify (with_filtered (JSSet.delete normalized f))
  end.

Definition unbind (sequences : list string) : Eff unit :=
  forOf sequences unbindOne tt ;;
  emitChange.

Definition reset : Eff unit :=
  modify (with_bindings JSMap.empty) ;;
  emitChange.

End WithKeyNotation.

(* ================================================================= *)
(** ** The earlier revision of [bind]

    The sources keep earlier revisions of [mod.ts].  In them [bind] goes
    through [checkKeyBindings] and is all-or-nothing: one sequence that
    fails makes the call insert nothing.  The latest revision, modelled
    above, replaced this with the per-sequence loop. *)

Module Legacy.

Section Legacy.

Context {KN : KeyNotation}.

(** One turn of the loop of [checkKeyBindings]; the locals are [errors]
    and [normalizedCommands].  The inner [continue] only skips the key. *)
Definition checkOne (entry : string * Command)
    (locals : list (string * string) * JSMap.t Command)
  : list (string * string) * JSMap.t Command :=
  let '(sequence, command) := entry in
  let '(errors, normalizedCommands) := locals in
  match parseSequence sequence with
  | None => (errors ++ [(sequence, "cannot parse the sequence")], normalizedCommands)
  | Some keys =>
      let '(normalizedSequence, errors) :=
        fold_left
          (fun '(acc, errors) k =>
             match normalize k with
             | Err e => (acc, errors ++ [(sequence, message (OfKeyError e))])
             | Ok v => ((acc ++ v)%string, errors)
             end)
          keys ("", errors) in
      (errors, JSMap.set normalizedSequence command normalizedCommands)
  end.

Definition checkKeyBindings (keyBindings : list (string * Command))
  : Result (JSMap.t Command) (list (string * string)) :=
  let '(errors, normalizedCommands) :=
    fold_left (fun locals entry => checkOne entry locals) keyBindings
      ([], JSMap.empty) in
  if (0 <? List.length errors)%nat then Err errors else Ok normalizedCommands.

Definition bind (entries : list (string * Command))
  : Eff (list (string * string)) :=
  match checkKeyBindings entries with
  | Err errors =>
      logger_error "Invalid key bindings" ;;
      ret errors
  | Ok commands =>
      forOf commands
        (fun '(sequence, command) _ =>
           b <- gets bindings ;;
           modify (with_bindings (JSMap.set sequence command b)) ;;
           current <- currentSequence ;;
           when (startsWith sequence current)
                (f <- gets filtered ;;
                 modify (with_filtered (JSSet.add sequence f))))
        tt ;;
      logger_debug (DbgBinded (JSMap.keys commands)) ;;
      emitChange ;;
      ret []
  end.

(** [unbind] of the same revision deletes the given keys as they are,
    without normalising them. *)
Definition unbind (keys : list string) : Eff unit :=
  forOf keys
    (fun key _ =>
       b <- gets bindings ;;
       modify (with_bindings (JSMap.delete key b)) ;;
       f <- gets filtered ;;
       modify (with_filtered (JSSet.delete key f)))
    tt ;;
  emitChange.

(** [handleKeydown] of the earlier revisions: the key named "Process" is
    taken as a sign of composition too. *)
Fixpoint handleKeydown (depth : nat) (e : KeyboardEvent) : Eff unit :=
  match depth with
  | O => fun w => (Exhausted, w)
  | S depth' =>
      if negb (isTrusted e) then ret tt
      else
        let vimKey := stringify e in
        if falsy vimKey then ret tt
        else
          id <- gets timer ;;
          clearTimeout id ;;
          if isComposing e || String.eqb (key e) "Process" then backToInitial
          else
            sequence <- currentSequence ;;
            set_currentSequence (sequence ++ vimKey)%string ;;
            sequence <- currentSequence ;;
            logger_debug (DbgSequence sequence) ;;
            candidates <- gets filtered ;;
            bestMatchCommand <- forOf candidates (narrow e) None ;;
            f <- gets filtered ;;
            let size := JSSet.size f in
            logger_debug (DbgCandidates size f) ;;
            when (0 <? size)%nat
                 (modify (with_prevBestMatchCommand bestMatchCommand)) ;;
            prev <- gets prevBestMatchCommand ;;
            match prev, (size <? 2)%nat with
            | Some bm, true =>
                runBestMatch bm ;;
                if (size =? 0)%nat then handleKeydown depth' e else ret tt
            | _, _ =>
                if (size =? 0)%nat then backToInitial
                else
                  emit (PreventDefault e) ;;
                  emit (StopPropagation e) ;;
                  prev <- gets prevBestMatchCommand ;;
                  ms <- gets flushInterval ;;
                  id <- setTimeout (orBackToInitial prev) ms ;;
                  modify (with_timer (Some id))
            end
  end.

End Legacy.

End Legacy.

(* ================================================================= *)
(** ** The event loop *)

(** What can happen to a [Mousetrap]: the target delivers a [keydown]
    event, a public method is called, or an armed timer expires. *)
Inductive Action : Type :=
| Keydown (e : KeyboardEvent)
| Bind (entries : list (string * Command))
| Unbind (sequences : list string)
| Reset
| TimerFires (id : nat).

(** Nesting budget given to [handleKeydown] by the event loop; theorem
    [handleKeydown_depth] shows that no larger budget changes
    anything. *)
Definition max_depth : nat := 2.

Section EventLoop.

Context {KN : KeyNotation}.

(** The target calls the listener only while it is registered. *)
Definition dispatchEvent (e : KeyboardEvent) : Eff unit :=
  l <- gets_host listening ;;
  when l (handleKeydown max_depth e).

(** Expiry of timer [id]: the host forgets the timer, then calls what it
    was armed with.  Nothing happens when [id] is not armed. *)
Definition fireTimer (id : nat) : Eff unit :=
  ts <- gets_host timers ;;
  match find (fun t => Nat.eqb (timer_id t) id) ts with
  | None => ret tt
  | Some t =>
      modify_host
        (with_timers (filter (fun t => negb (Nat.eqb (timer_id t) id)) ts)) ;;
      runHandler (timer_handler t)
  end.

Definition step (a : Action) : Eff unit :=
  match a with
  | Keydown e => dispatchEvent e
  | Bind entries => bind entries ;; ret tt
  | Unbind sequences => unbind sequences
  | Reset => reset
  | TimerFires id => fireTimer id
  end.

Definition exec (a : Action) (w : World) : World := snd (step a w).

Definition run (actions : list Action) (w : World) : World :=
  fold_left (fun w a => exec a w) actions w.

(** Feeding key events straight to the listener, one after the other. *)
Definition feed (events : list KeyboardEvent) : Eff unit :=
  forOf events (fun e _ => handleKeydown max_depth e) tt.

(** An event that [handleKeydown] takes as a key token: trusted, with a
    key that [stringify] can write, outside a composition. *)
Definition isKeyToken (e : KeyboardEvent) : bool :=
  isTrusted e && negb (falsy (stringify e)) && negb (isComposing e).

(** The sequence that a list of events spells. *)
Definition typed (events : list KeyboardEvent) : string :=
  fold_right (fun e rest => (stringify e ++ rest)%string) "" events.

End EventLoop.

(* ================================================================= *)
(** ** Observations *)

(** The commands called, most recent first. *)
Definition invocations (l : list Effect) : list (Command * KeyboardEvent) :=
  flat_map (fun x => match x with Invoke c e => [(c, e)] | _ => [] end) l.

(** The errors given to [logger.error]. *)
Definition logged_errors (l : list Effect) : list string :=
  flat_map (fun x => match x with LoggerError m => [m] | _ => [] end) l.

(** The buffers that [handleKeydown] logged, most recent first: each pass
    of [handleKeydown] beyond its guards logs the buffer exactly once, so
    their number is the number of passes. *)
Definition buffers_seen (l : list Effect) : list string :=
  flat_map
    (fun x => match x with LoggerDebug (DbgSequence s) => [s] | _ => [] end) l.

Definition passes (l : list Effect) : nat := List.length (buffers_seen l).

Arguments invocations : simpl never.
Arguments logged_errors : simpl never.
Arguments buffers_seen : simpl never.
Arguments passes : simpl never.

(** The effects in the order they happened. *)
Definition trace (w : World) : list Effect := rev (log (host w)).

Definition same_elements (l1 l2 : list string) : Prop :=
  forall k, In k l1 <-> In k l2.

(** The Idle state of the matcher. *)
Definition Idle (w : World) : Prop :=
  _sequence (this w) = ""
  /\ same_elements (filtered (this w)) (JSMap.keys (bindings (this w)))
  /\ prevBestMatchCommand (this w) = None
  /\ timers (host w) = [].

(** The candidate set holds exactly the bound sequences that start with
    the buffer. *)
Definition candidates_consistent (m : Mousetrap) : Prop :=
  forall k, In k (filtered m) <->
            In k (JSMap.keys (bindings m)) /\ startsWith k (_sequence m) = true.

(** What a mutation of the table leaves, from world [w] to world [w']: a
    consistent candidate set; the Idle state when the table is left empty;
    buffer, holder and timers untouched when it is not. *)
Definition reconciled (w w' : World) : Prop :=
  candidates_consistent (this w')
  /\ if (JSMap.size (bindings (this w')) =? 0)%nat then Idle w'
     else _sequence (this w') = _sequence (this w)
          /\ prevBestMatchCommand (this w') = prevBestMatchCommand (this w)
          /\ timers (host w') = timers (host w).

(** What every reachable world satisfies. *)
Record Inv (w : World) : Prop := {
  inv_keys : NoDup (JSMap.keys (bindings (this w)));
  inv_filtered_nodup : NoDup (filtered (this w));
  inv_filtered : candidates_consistent (this w);
  inv_one_timer : (List.length (timers (host w)) <= 1)%nat;
  inv_timer :
    forall t, In t (timers (host w)) ->
      timer (this w) = Some (timer_id t)
      /\ timer_handler t = orBackToInitial (prevBestMatchCommand (this w))
      /\ timer_delay t = flushInterval (this w);
  inv_fresh :
    forall t, In t (timers (host w)) -> (timer_id t < nextTimerId (host w))%nat;
  inv_listening :
    listening (host w) = negb (JSMap.size (bindings (this w)) =? 0)%nat;
  inv_empty_table :
    bindings (this w) = [] ->
    _sequence (this w) = ""
    /\ prevBestMatchCommand (this w) = None
    /\ timers (host w) = []
}.

(** The loop of [handleKeydown] as two folds over the snapshot of the
    candidates: what remains of the set, and the exact match found. *)
Definition keeps (b : JSMap.t Command) (sequence k : string) : bool :=
  startsWith k sequence
  && negb (String.eqb sequence k
           && match JSMap.get k b with Some _ => false | None => true end).

Definition narrowed (b : JSMap.t Command) (sequence : string)
    (ks : list string) (f : JSSet.t) : JSSet.t :=
  fold_left (fun f k => if keeps b sequence k then f else JSSet.delete k f) ks f.

Definition exactMatch (b : JSMap.t Command) (sequence : string)
    (e : KeyboardEvent) (ks : list string) (best : option BestMatch)
  : option BestMatch :=
  fold_left
    (fun best k =>
       if String.eqb sequence k then
         match JSMap.get k b with
         | Some command =>
             Some {| bm_key := k; bm_command := command; bm_event := e |}
         | None => best
         end
       else best)
    ks best.

(* ================================================================= *)
(** ** A small key notation to run the model on examples

    One character is one key; a sequence containing ["<"] does not parse
    and the key ["!"] does not normalise. *)

Definition chars (s : string) : list string :=
  map (fun c => String c EmptyString) (list_ascii_of_string s).

Definition plainKeys : KeyNotation :=
  {| Key := string;
     parseSequence := fun s =>
       if existsb (String.eqb "<") (chars s) then None else Some (chars s);
     normalize := fun k =>
       if String.eqb k "!" then Err (InvalidKeyError "invalid key") else Ok k;
     stringify := fun e => key e |}.

Definition press (k : string) : KeyboardEvent :=
  {| isTrusted := true; isComposing := false; key := k;
     ctrlKey := false; shiftKey := false; altKey := false; metaKey := false |}.

Definition synthetic (k : string) : KeyboardEvent :=
  {| isTrusted := false; isComposing := false; key := k;
     ctrlKey := false; shiftKey := false; altKey := false; metaKey := false |}.

Definition composing (k : string) : KeyboardEvent :=
  {| isTrusted := true; isComposing := true; key := k;
     ctrlKey := false; shiftKey := false; altKey := false; metaKey := false |}.

Definition cmd_ok : Command := fun _ => Returns.
Definition cmd_other : Command := fun e => if isTrusted e then Returns else Throws "never".
Definition cmd_boom : Command := fun _ => Throws "boom".

(** The bindings and the target of the repository's test file. *)

Definition run_plain : list Action -> World -> World := run (KN := plainKeys).

Definition called (w : World) : list string :=
  map (fun ce => key (snd ce)) (rev (invocations (log (host w)))).

Definition test_bindings : list (string * Command) :=
  [("gg", cmd_ok); ("G", cmd_ok); ("d", cmd_ok); ("g", cmd_ok); ("rr", cmd_ok)].

Definition test_world : World :=
  run_plain [Bind test_bindings]
    (new_World (Some {| opt_onSequenceUpdate := false;
                        opt_flushInterval := Some 50%Z |})).

(** "d" and "dd" bound together. *)

Definition d_and_dd : list (string * Command) := [("d", cmd_ok); ("dd", cmd_other)].

Definition bound_d_dd : World := run_plain [Bind d_and_dd] (new_World None).

(** The world in which "d" and "dd" are bound and "d" has been typed. *)
Definition pending_d : World :=
  run_plain [Bind d_and_dd; Keydown (press "d")] (new_World None).

Definition held_d : BestMatch :=
  {| bm_key := "d"; bm_command := cmd_ok; bm_event := press "d" |}.

Definition timer_d : Timer :=
  {| timer_id := 0; timer_handler := HBestMatch held_d; timer_delay := 1000%Z |}.

(* ================================================================= *)
(** ** Closed forms

    The world a method leaves behind, written as a function of the world
    it starts from.  The lemmas [backToInitial_eq], [runBestMatch_eq],
    [handleKeydown_pass], [bind_eq], [unbind_eq] and [fireTimer_eq] below
    show that the methods compute exactly these. *)

Definition cleared (id : option nat) (ts : list Timer) : list Timer :=
  match id with
  | None => ts
  | Some n => filter (fun t => negb (Nat.eqb (timer_id t) n)) ts
  end.

(** After [backToInitial]. *)
Definition resetWorld (w : World) : World :=
  let m := this w in
  let h := host w in
  {| this := with_filtered (JSSet.of_iterable (JSMap.keys (bindings m)))
               (with_prevBestMatchCommand None (with_sequence "" m));
     host := with_log
               (LoggerDebug DbgReset ::
                (if negb (String.eqb (_sequence m) "") && onSequenceUpdate m
                 then [SequenceUpdate ""] else []) ++ log h)
               (with_timers (cleared (timer m) (timers h)) h) |}.

(** After the [try]/[catch] of the closure, before its [finally]. *)
Definition invokedWorld (bm : BestMatch) (w : World) : World :=
  {| this := this w;
     host := with_log
               ((match bm_command bm (bm_event bm) with
                 | Returns => []
                 | Throws error => [LoggerError error]
                 end) ++
                Invoke (bm_command bm) (bm_event bm) ::
                LoggerDebug (DbgRun (bm_key bm)) :: log (host w))
               (host w) |}.

(** After the last lines of [handleKeydown], which arm the timer. *)
Definition armedWorld (e : KeyboardEvent) (w : World) : World :=
  let m := this w in
  let h := host w in
  {| this := with_timer (Some (nextTimerId h)) m;
     host := with_nextTimerId (S (nextTimerId h))
               (with_timers
                  (timers h ++
                   [{| timer_id := nextTimerId h;
                       timer_handler := orBackToInitial (prevBestMatchCommand m);
                       timer_delay := flushInterval m |}])
                  (with_log (StopPropagation e :: PreventDefault e :: log h) h)) |}.

(** After [emitChange]. *)
Definition emitChangeWorld (w : World) : World :=
  if (JSMap.size (bindings (this w)) =? 0)%nat then
    {| this := this (resetWorld w);
       host := with_listening false (host (resetWorld w)) |}
  else {| this := this w; host := with_listening true (host w) |}.

(** The world without timer [id]. *)
Definition expiredWorld (id : nat) (w : World) : World :=
  {| this := this w;
     host := with_timers
               (filter (fun t => negb (Nat.eqb (timer_id t) id)) (timers (host w)))
               (host w) |}.

Section ClosedForms.

Context {KN : KeyNotation}.

(** After the first half of a pass of [handleKeydown]: the timer is
    cleared, the token appended, the candidates narrowed and the holder
    updated. *)
Definition accumulatedWorld (e : KeyboardEvent) (w : World) : World :=
  let m := this w in
  let h := host w in
  let sequence := (_sequence m ++ stringify e)%string in
  let f := narrowed (bindings m) sequence (filtered m) (filtered m) in
  let best := exactMatch (bindings m) sequence e (filtered m) None in
  {| this := with_prevBestMatchCommand
               (if (0 <? JSSet.size f)%nat then best else prevBestMatchCommand m)
               (with_filtered f (with_sequence sequence m));
     host := with_log
               (LoggerDebug (DbgCandidates (JSSet.size f) f) ::
                LoggerDebug (DbgSequence sequence) ::
                (if onSequenceUpdate m then [SequenceUpdate sequence] else []) ++
                log h)
               (with_timers (cleared (timer m) (timers h)) h) |}.

(** One turn of the loop of [bind], on the object, on [errorMap], on
    [sequences] and on the log. *)
Definition bindStep (m : Mousetrap) (entry : string * Command) : Mousetrap :=
  match normalizeSequence (fst entry) with
  | Err _ => m
  | Ok normalized =>
      with_filtered
        (if startsWith normalized (_sequence m)
         then JSSet.add normalized (filtered m) else filtered m)
        (with_bindings (JSMap.set normalized (snd entry) (bindings m)) m)
  end.

Definition bindReport (errorMap : JSMap.t (list BindingError))
    (entry : string * Command) : JSMap.t (list BindingError) :=
  match normalizeSequence (fst entry) with
  | Err errors => JSMap.set (fst entry) errors errorMap
  | Ok _ => errorMap
  end.

Definition bindSequences (sequences : list string)
    (entry : string * Command) : list string :=
  match normalizeSequence (fst entry) with
  | Err _ => sequences
  | Ok normalized => sequences ++ [normalized]
  end.

Definition bindLog (l : list Effect) (entry : string * Command) : list Effect :=
  match normalizeSequence (fst entry) with
  | Err errors =>
      rev (map (fun error =>
                  LoggerError (fst entry ++ ": " ++ message error)%string)
               errors) ++ l
  | Ok _ => l
  end.

(** After the loop of [bind]. *)
Definition boundWorld (entries : list (string * Command)) (w : World) : World :=
  {| this := fold_left bindStep entries (this w);
     host := with_log
               (LoggerDebug (DbgBinded (fold_left bindSequences entries [])) ::
                fold_left bindLog entries (log (host w)))
               (host w) |}.

(** One turn of the loop of [unbind]. *)
Definition unbindStep (m : Mousetrap) (sequence : string) : Mousetrap :=
  match normalizeSequence sequence with
  | Err _ => m
  | Ok normalized =>
      with_filtered (JSSet.delete normalized (filtered m))
        (with_bindings (JSMap.delete normalized (bindings m)) m)
  end.

Definition unboundWorld (sequences : list string) (w : World) : World :=
  {| this := fold_left unbindStep sequences (this w); host := host w |}.

(** The batch entries that normalise, as (canonical sequence, command). *)
Definition successes (entries : list (string * Command))
  : list (string * Command) :=
  flat_map (fun entry =>
              match normalizeSequence (fst entry) with
              | Ok normalized => [(normalized, snd entry)]
              | Err _ => []
              end) entries.

Definition normalizes (sequence : string) : bool :=
  match normalizeSequence sequence with
  | Ok _ => true
  | Err _ => false
  end.

(** Whether one of the arguments of [unbind] normalises to [k]. *)
Definition unbinds (sequences : list string) (k : string) : bool :=
  existsb (fun sequence =>
             match normalizeSequence sequence with
             | Ok normalized => String.eqb normalized k
             | Err _ => false
             end) sequences.

(** The command the batch leaves at canonical sequence [k]: the one of
    the last entry that normalises to [k]. *)
Definition lastBound (entries : list (string * Command)) (k : string)
  : option Command :=
  match find (fun nc => String.eqb (fst nc) k) (rev (successes entries)) with
  | Some nc => Some (snd nc)
  | None => None
  end.

End ClosedForms.

(* ================================================================= *)
(** ** Further observations *)

(** The sequences handed to the [onSequenceUpdate] callback, most recent
    first. *)
Definition notified (l : list Effect) : list string :=
  flat_map (fun x => match x with SequenceUpdate s => [s] | _ => [] end) l.

(** The events on which [preventDefault] and [stopPropagation] were
    called, most recent first. *)
Definition prevented (l : list Effect) : list KeyboardEvent :=
  flat_map (fun x => match x with PreventDefault e => [e] | _ => [] end) l.

Definition stopped (l : list Effect) : list KeyboardEvent :=
  flat_map (fun x => match x with StopPropagation e => [e] | _ => [] end) l.

Arguments notified : simpl never.
Arguments prevented : simpl never.
Arguments stopped : simpl never.

(** What one call of [handleKeydown] from [w] to [w'] suppresses of its
    event when a timer is armed at the end, and nothing otherwise. *)
Definition suppresses (e : KeyboardEvent) (w w' : World) : Prop :=
  prevented (log (host w')) =
    (match timers (host w') with [] => [] | _ :: _ => [e] end)
    ++ prevented (log (host w))
  /\ stopped (log (host w')) =
    (match timers (host w') with [] => [] | _ :: _ => [e] end)
    ++ stopped (log (host w)).

(** No two neighbours of the list are equal. *)
Fixpoint no_repeat (l : list string) : bool :=
  match l with
  | x :: (y :: _) as rest => negb (String.eqb x y) && no_repeat rest
  | _ => true
  end.

(** What the callback has been told agrees with the buffer: the last
    value notified is the buffer (the buffer is empty if nothing was ever
    notified), and no notification repeats the value before it, the first
    one differing from the initial empty buffer.  Without a callback
    nothing is notified. *)
Definition in_sync (w : World) : Prop :=
  if onSequenceUpdate (this w) then
    hd "" (notified (log (host w))) = _sequence (this w)
    /\ no_repeat (notified (log (host w)) ++ [""]) = true
  else notified (log (host w)) = [].

(** The state of a pending sequence: a timer is armed exactly while the
    buffer is not empty, and a full holder holds the match for the
    buffer. *)
Definition pending_consistent (w : World) : Prop :=
  (timers (host w) = [] <-> _sequence (this w) = "")
  /\ match prevBestMatchCommand (this w) with
     | Some bm => bm_key bm = _sequence (this w) /\ timers (host w) <> []
     | None => True
     end.

Section NormalizerForms.

Context {KN : KeyNotation}.

(** The errors of the keys of a parsed sequence, in order. *)
Definition keyErrors (keys : list Key) : list BindingError :=
  flat_map (fun k => match normalize k with
                     | Err e => [OfKeyError e]
                     | Ok _ => []
                     end) keys.

(** The canonical tokens of the keys that normalise, concatenated. *)
Definition keyTokens (keys : list Key) : string :=
  fold_right (fun k rest => match normalize k with
                            | Ok v => (v ++ rest)%string
                            | Err _ => rest
                            end) "" keys.

(** The errors of [normalizeSequence], empty when it succeeds. *)
Definition sequenceErrors (sequence : string) : list BindingError :=
  match normalizeSequence sequence with
  | Err errors => errors
  | Ok _ => []
  end.

(** What the earlier [checkKeyBindings] reports for a batch: for each
    entry, in order, the messages of its errors paired with the raw
    sequence. *)
Definition batchErrors (entries : list (string * Command))
  : list (string * string) :=
  flat_map (fun entry =>
              map (fun error => (fst entry, message error))
                  (sequenceErrors (fst entry))) entries.

(** The arguments of [unbind] that normalise, in canonical form. *)
Definition canonicals (sequences : list string) : list string :=
  flat_map (fun sequence =>
              match normalizeSequence sequence with
              | Ok normalized => [normalized]
              | Err _ => []
              end) sequences.

End NormalizerForms.

(* ================================================================= *)
(** * Properties *)

(** ** Strings *)

Lemma startsWith_empty (s : string) : startsWith s "" = true.
Proof. destruct s; reflexivity. Qed.

Lemma startsWith_refl (s : string) : startsWith s s = true.
Proof.
  unfold startsWith. induction s as [|c s IH]; simpl; [reflexivity|].
  destruct (ascii_dec c c); [exact IH | congruence].
Qed.

Lemma startsWith_append (s t : string) : startsWith (s ++ t) s = true.
Proof.
  unfold startsWith. induction s as [|c s IH]; simpl.
  - destruct t; reflexivity.
  - destruct (ascii_dec c c); [exact IH | congruence].
Qed.

Lemma startsWith_shorter (k s t : string) :
  startsWith k (s ++ t) = true -> startsWith k s = true.
Proof.
  unfold startsWith. revert k.
  induction s as [|c s IH]; intros [|c' k] H; simpl in *;
    try reflexivity; try discriminate.
  destruct (ascii_dec c c'); [apply IH; exact H | discriminate].
Qed.

Lemma startsWith_antisym (k s : string) :
  startsWith k s = true -> startsWith s k = true -> k = s.
Proof.
  unfold startsWith. revert s.
  induction k as [|c k IH]; intros [|c' s] H1 H2; simpl in *;
    try reflexivity; try discriminate.
  destruct (ascii_dec c' c); [|discriminate].
  destruct (ascii_dec c c'); [|discriminate].
  subst. f_equal. apply IH; assumption.
Qed.

Lemma append_empty_r (s : string) : (s ++ "")%string = s.
Proof. induction s as [|c s IH]; simpl; [reflexivity | now rewrite IH]. Qed.

Lemma append_assoc (s t u : string) :
  ((s ++ t) ++ u)%string = (s ++ (t ++ u))%string.
Proof. induction s as [|c s IH]; simpl; [reflexivity | now rewrite IH]. Qed.

Lemma append_same_empty (s t : string) : (s ++ t)%string = s -> t = "".
Proof.
  induction s as [|c s IH]; simpl; intros H; [exact H|].
  injection H as H. exact (IH H).
Qed.

Lemma falsy_false_append (s t : string) :
  falsy t = false -> String.eqb s (s ++ t) = false.
Proof.
  intros Ht. apply String.eqb_neq. intros H. symmetry in H.
  apply append_same_empty in H. subst t. discriminate.
Qed.

(** ** Containers *)

Module JSMapFacts.
Import JSMap.

Section Facts.
Context {V : Type}.
Implicit Types (m : t V) (k : string) (v : V).

Lemma get_In_keys m k v : get k m = Some v -> In k (keys m).
Proof.
  induction m as [|[k' v'] m IH]; simpl; [discriminate|].
  destruct (String.eqb_spec k' k); intros H; [left; assumption | right; auto].
Qed.

Lemma In_keys_get m k : In k (keys m) -> exists v, get k m = Some v.
Proof.
  induction m as [|[k' v'] m IH]; simpl; [contradiction|].
  destruct (String.eqb_spec k' k); intros H; [eexists; reflexivity|].
  destruct H as [H|H]; [contradiction | auto].
Qed.

Lemma get_None_keys m k : get k m = None <-> ~ In k (keys m).
Proof.
  split.
  - intros H Hin. apply In_keys_get in Hin as [v Hv]. congruence.
  - intros H. destruct (get k m) eqn:E; [|reflexivity].
    apply get_In_keys in E. contradiction.
Qed.

Lemma keys_set m k k' v : In k (keys (set k' v m)) <-> In k (keys m) \/ k = k'.
Proof.
  induction m as [|[k0 v0] m IH]; simpl.
  - intuition congruence.
  - destruct (String.eqb_spec k0 k'); simpl; [subst; intuition congruence|].
    rewrite IH. tauto.
Qed.

Lemma NoDup_keys_set m k v : NoDup (keys m) -> NoDup (keys (set k v m)).
Proof.
  induction m as [|[k0 v0] m IH]; simpl; intros H.
  - constructor; [intros []|constructor].
  - inversion H as [|? ? Hn Hd]; subst.
    destruct (String.eqb_spec k0 k); simpl.
    + constructor; assumption.
    + constructor; [|auto]. rewrite keys_set. intros [?|?]; [contradiction|congruence].
Qed.

Lemma get_set m k k' v :
  get k (set k' v m) = if String.eqb k' k then Some v else get k m.
Proof.
  induction m as [|[k0 v0] m IH]; simpl.
  - reflexivity.
  - destruct (String.eqb_spec k0 k'); simpl.
    + subst. destruct (String.eqb_spec k' k); reflexivity.
    + destruct (String.eqb_spec k0 k); [|exact IH].
      subst. destruct (String.eqb_spec k' k); [congruence | reflexivity].
Qed.

Lemma keys_delete m k k' : In k (keys (delete k' m)) <-> In k (keys m) /\ k <> k'.
Proof.
  unfold keys, delete. rewrite !in_map_iff. split.
  - intros [[k0 v0] [E H]]. apply filter_In in H as [H1 H2]. simpl in *. subst.
    destruct (String.eqb_spec k k'); [discriminate|].
    split; [exists (k, v0); auto | assumption].
  - intros [[[k0 v0] [E H]] Hne]. simpl in E. subst.
    exists (k, v0). split; [reflexivity|]. apply filter_In. split; [assumption|].
    simpl. destruct (String.eqb_spec k k'); [contradiction | reflexivity].
Qed.

Lemma NoDup_keys_delete m k : NoDup (keys m) -> NoDup (keys (delete k m)).
Proof.
  induction m as [|[k0 v0] m IH]; simpl; intros H; [constructor|].
  inversion H as [|? ? Hn Hd]; subst.
  destruct (String.eqb_spec k0 k); simpl; [auto|].
  constructor; [|auto]. fold (delete k m). rewrite keys_delete. tauto.
Qed.

Lemma get_delete m k k' :
  get k (delete k' m) = if String.eqb k k' then None else get k m.
Proof.
  induction m as [|[k0 v0] m IH]; simpl.
  - destruct (String.eqb k k'); reflexivity.
  - destruct (String.eqb_spec k0 k'); simpl.
    + subst. rewrite IH. destruct (String.eqb_spec k k'); [reflexivity|].
      destruct (String.eqb_spec k' k); [congruence | reflexivity].
    + destruct (String.eqb_spec k0 k); [|exact IH].
      subst. destruct (String.eqb_spec k k'); [contradiction | reflexivity].
Qed.

Lemma size_0_keys m : (size m =? 0)%nat = true -> keys m = [].
Proof. destruct m; [reflexivity | discriminate]. Qed.
End Facts.
End JSMapFacts.

Module JSSetFacts.
Import JSSet.
Implicit Types (s : t) (k : string).

Lemma has_In k s : has k s = true <-> In k s.
Proof.
  unfold has. rewrite existsb_exists. split.
  - intros [x [H E]]. apply String.eqb_eq in E. now subst.
  - intros H. exists k. split; [assumption | apply String.eqb_refl].
Qed.

Lemma In_add k k' s : In k (add k' s) <-> In k s \/ k = k'.
Proof.
  unfold add. destruct (has k' s) eqn:E.
  - apply has_In in E. split; [auto|]. intros [?|?]; [assumption | now subst].
  - rewrite in_app_iff. simpl. intuition congruence.
Qed.

Lemma NoDup_add k s : NoDup s -> NoDup (add k s).
Proof.
  unfold add. destruct (has k s) eqn:E; [auto|]. intros H.
  assert (~ In k s) as Hn by (rewrite <- has_In; congruence).
  clear E. induction s as [|x s IH]; simpl.
  - constructor; [intros []|constructor].
  - inversion H; subst. constructor.
    + rewrite in_app_iff. simpl in *. intuition congruence.
    + apply IH; [assumption|]. simpl in Hn. tauto.
Qed.

Lemma In_delete k k' s : In k (delete k' s) <-> In k s /\ k <> k'.
Proof.
  unfold delete. rewrite filter_In.
  destruct (String.eqb_spec k k'); simpl; intuition congruence.
Qed.

Lemma NoDup_delete k s : NoDup s -> NoDup (delete k s).
Proof. apply NoDup_filter. Qed.

Lemma In_fold_add l s k :
  In k (fold_left (fun s k => add k s) l s) <-> In k s \/ In k l.
Proof.
  revert s. induction l as [|x l IH]; simpl; intros s; [tauto|].
  rewrite IH, In_add. intuition congruence.
Qed.

Lemma NoDup_fold_add l s :
  NoDup s -> NoDup (fold_left (fun s k => add k s) l s).
Proof.
  revert s. induction l as [|x l IH]; simpl; intros s H; [assumption|].
  apply IH, NoDup_add, H.
Qed.

Lemma In_of_iterable l k : In k (of_iterable l) <-> In k l.
Proof. unfold of_iterable. rewrite In_fold_add. simpl. tauto. Qed.

Lemma NoDup_of_iterable l : NoDup (of_iterable l).
Proof. apply NoDup_fold_add. constructor. Qed.
End JSSetFacts.

(** ** The methods compute their closed forms *)

Ltac eff_simpl :=
  cbn -[set_currentSequence forOf handleKeydown backToInitial runBestMatch
        narrowed exactMatch String.eqb String.append].

Ltac eff_step L := unfold bind_eff at 1; rewrite L; eff_simpl.

Section Methods.

Context {KN : KeyNotation}.

Lemma clearTimeout_eq id w :
  clearTimeout id w =
  (Normal tt,
   {| this := this w;
      host := with_timers (cleared id (timers (host w))) (host w) |}).
Proof. destruct w as [m [ts n l lg]], id; reflexivity. Qed.

Lemma set_currentSequence_eq s w :
  set_currentSequence s w =
  (Normal tt,
   {| this := with_sequence s (this w);
      host := with_log
                ((if negb (String.eqb (_sequence (this w)) s)
                       && onSequenceUpdate (this w)
                  then [SequenceUpdate s] else []) ++ log (host w))
                (host w) |}).
Proof.
  destruct w as [[nu fi b s0 p f t] [ts n l lg]].
  unfold set_currentSequence, emit, bind_eff, gets, when, modify, modify_host, ret.
  cbn. destruct (String.eqb s0 s), nu; reflexivity.
Qed.

Lemma backToInitial_eq w : backToInitial w = (Normal tt, resetWorld w).
Proof.
  destruct w as [[nu fi b s p f t] [ts n l lg]].
  unfold backToInitial, resetWorld, set_currentSequence, clearTimeout,
    logger_debug, emit, bind_eff, gets, when, modify, modify_host, ret.
  destruct t; cbn; destruct (String.eqb s ""), nu; reflexivity.
Qed.

Lemma runBestMatch_eq bm w :
  runBestMatch bm w = (Normal tt, resetWorld (invokedWorld bm w)).
Proof.
  unfold runBestMatch, try_catch_finally, logger_debug, logger_error, emit,
    call, modify_host, bind_eff.
  cbn -[backToInitial]. unfold invokedWorld.
  destruct (bm_command bm (bm_event bm)); cbn -[backToInitial];
    rewrite backToInitial_eq; reflexivity.
Qed.

Lemma narrow_loop e ks : forall best w,
  forOf ks (narrow e) best w =
  (Normal (exactMatch (bindings (this w)) (_sequence (this w)) e ks best),
   {| this := with_filtered
                (narrowed (bindings (this w)) (_sequence (this w)) ks
                   (filtered (this w)))
                (this w);
      host := host w |}).
Proof.
  induction ks as [|k ks IH]; intros best w.
  - destruct w as [[] ?]; reflexivity.
  - cbn [forOf]. unfold bind_eff at 1.
    assert (narrow e k best w =
      (Normal (exactMatch (bindings (this w)) (_sequence (this w)) e [k] best),
       {| this := with_filtered
                    (narrowed (bindings (this w)) (_sequence (this w)) [k]
                       (filtered (this w)))
                    (this w);
          host := host w |})) as ->.
    { destruct w as [[nu fi b s p f t] h].
      unfold narrow, narrowed, exactMatch, currentSequence, bind_eff, gets,
        when, modify, ret.
      cbn. unfold keeps.
      destruct (String.eqb_spec s k) as [E|E].
      - subst k. rewrite startsWith_refl. cbn.
        destruct (JSMap.get s b); reflexivity.
      - destruct (startsWith k s); reflexivity. }
    rewrite IH. cbn. reflexivity.
Qed.

(** One pass of [handleKeydown] on an event that passes the guards. *)
Lemma handleKeydown_pass d e w :
  isTrusted e = true -> falsy (stringify e) = false -> isComposing e = false ->
  handleKeydown (S d) e w =
    let w1 := accumulatedWorld e w in
    let size := JSSet.size (filtered (this w1)) in
    match prevBestMatchCommand (this w1), (size <? 2)%nat with
    | Some bm, true =>
        if (size =? 0)%nat
        then handleKeydown d e (resetWorld (invokedWorld bm w1))
        else (Normal tt, resetWorld (invokedWorld bm w1))
    | _, _ =>
        if (size =? 0)%nat then (Normal tt, resetWorld w1)
        else (Normal tt, armedWorld e w1)
    end.
Proof.
  intros H1 H2 H3. cbn [handleKeydown]. rewrite H1, H2, H3. cbn [negb].
  destruct w as [[nu fi b s p f t] [ts n l lg]].
  unfold currentSequence.
  eff_simpl. eff_step clearTimeout_eq. eff_step set_currentSequence_eq.
  rewrite falsy_false_append by assumption.
  eff_step narrow_loop.
  unfold accumulatedWorld. eff_simpl. unfold JSSet.size.
  generalize (narrowed b (s ++ stringify e) f f) as f'.
  generalize (exactMatch b (s ++ stringify e) e f None) as best.
  intros best f'.
  destruct f' as [|k1 [|k2 f']]; [destruct p | destruct best | destruct best];
    eff_simpl;
    try (unfold bind_eff at 1; rewrite runBestMatch_eq; eff_simpl);
    try rewrite backToInitial_eq;
    try reflexivity.
Qed.

Lemma handleKeydown_untrusted d e w :
  isTrusted e = false -> handleKeydown (S d) e w = (Normal tt, w).
Proof. intros H. cbn [handleKeydown]. rewrite H. reflexivity. Qed.

Lemma handleKeydown_unwritable d e w :
  falsy (stringify e) = true -> handleKeydown (S d) e w = (Normal tt, w).
Proof.
  intros H. cbn [handleKeydown]. rewrite H.
  destruct (isTrusted e); reflexivity.
Qed.

Lemma handleKeydown_composing d e w :
  isTrusted e = true -> falsy (stringify e) = false -> isComposing e = true ->
  handleKeydown (S d) e w =
  (Normal tt,
   resetWorld
     {| this := this w;
        host := with_timers (cleared (timer (this w)) (timers (host w)))
                  (host w) |}).
Proof.
  intros H1 H2 H3. cbn [handleKeydown]. rewrite H1, H2, H3. cbn [negb].
  eff_simpl. eff_step clearTimeout_eq. apply backToInitial_eq.
Qed.

Lemma emitChange_eq w : emitChange w = (Normal tt, emitChangeWorld w).
Proof.
  unfold emitChange, emitChangeWorld, bind_eff, gets, addEventListener,
    removeEventListener, modify_host.
  destruct (JSMap.size (bindings (this w)) =? 0)%nat;
    [rewrite backToInitial_eq|]; reflexivity.
Qed.

Lemma log_errors_eq seq errors : forall w,
  forOf errors
    (fun error _ => logger_error (seq ++ ": " ++ message error)%string) tt w =
  (Normal tt,
   {| this := this w;
      host := with_log
                (rev (map (fun error =>
                             LoggerError (seq ++ ": " ++ message error)%string)
                          errors) ++ log (host w))
                (host w) |}).
Proof.
  induction errors as [|x errors IH]; intros w.
  - destruct w as [m [ts n l lg]]; reflexivity.
  - cbn [forOf]. unfold bind_eff at 1. cbn [logger_error emit modify_host].
    rewrite IH. cbn. rewrite <- app_assoc. reflexivity.
Qed.

Lemma bindOne_eq entry errorMap sequences w :
  bindOne entry (errorMap, sequences) w =
  (Normal (bindReport errorMap entry, bindSequences sequences entry),
   {| this := bindStep (this w) entry;
      host := with_log (bindLog (log (host w)) entry) (host w) |}).
Proof.
  destruct entry as [seq cmd].
  unfold bindOne, bindReport, bindSequences, bindStep, bindLog. cbn [fst snd].
  destruct (normalizeSequence seq) as [normalized|errors].
  - destruct w as [[nu fi b s p f t] [ts n l lg]].
    unfold currentSequence, bind_eff, gets, when, modify, ret. cbn.
    destruct (startsWith normalized s); reflexivity.
  - unfold bind_eff at 1. rewrite log_errors_eq. reflexivity.
Qed.

Lemma bind_loop entries : forall errorMap sequences w,
  forOf entries bindOne (errorMap, sequences) w =
  (Normal (fold_left bindReport entries errorMap,
           fold_left bindSequences entries sequences),
   {| this := fold_left bindStep entries (this w);
      host := with_log (fold_left bindLog entries (log (host w))) (host w) |}).
Proof.
  induction entries as [|entry entries IH]; intros errorMap sequences w.
  - destruct w as [m [ts n l lg]]; reflexivity.
  - cbn [forOf]. unfold bind_eff at 1. rewrite bindOne_eq, IH. reflexivity.
Qed.

Lemma bind_eq entries w :
  bind entries w =
  (Normal (fold_left bindReport entries JSMap.empty),
   emitChangeWorld (boundWorld entries w)).
Proof.
  unfold bind. unfold bind_eff at 1. rewrite bind_loop.
  unfold bind_eff at 1. cbn [logger_debug emit modify_host].
  unfold bind_eff at 1. rewrite emitChange_eq. reflexivity.
Qed.

Lemma unbind_loop sequences : forall w,
  forOf sequences unbindOne tt w = (Normal tt, unboundWorld sequences w).
Proof.
  induction sequences as [|x sequences IH]; intros w.
  - destruct w as [m h]; reflexivity.
  - cbn [forOf]. unfold bind_eff at 1.
    assert (unbindOne x tt w =
            (Normal tt, {| this := unbindStep (this w) x; host := host w |})) as ->.
    { unfold unbindOne, unbindStep.
      destruct (normalizeSequence x); [|destruct w; reflexivity].
      reflexivity. }
    rewrite IH. reflexivity.
Qed.

Lemma unbind_eq sequences w :
  unbind sequences w = (Normal tt, emitChangeWorld (unboundWorld sequences w)).
Proof.
  unfold unbind. unfold bind_eff at 1. rewrite unbind_loop.
  apply emitChange_eq.
Qed.

Lemma reset_eq w :
  reset w =
  (Normal tt,
   emitChangeWorld {| this := with_bindings JSMap.empty (this w); host := host w |}).
Proof. unfold reset. unfold bind_eff at 1. cbn [modify]. apply emitChange_eq. Qed.

Lemma fireTimer_eq id w :
  fireTimer id w =
  match find (fun t => Nat.eqb (timer_id t) id) (timers (host w)) with
  | None => (Normal tt, w)
  | Some t =>
      match timer_handler t with
      | HBestMatch bm =>
          (Normal tt, resetWorld (invokedWorld bm (expiredWorld id w)))
      | HBackToInitial => (Normal tt, resetWorld (expiredWorld id w))
      end
  end.
Proof.
  unfold fireTimer. unfold bind_eff at 1. cbn [gets_host].
  destruct (find _ _) as [t|]; [|reflexivity].
  unfold bind_eff at 1. cbn [modify_host].
  destruct (timer_handler t); cbn [runHandler];
    [rewrite runBestMatch_eq | rewrite backToInitial_eq]; reflexivity.
Qed.

End Methods.

(** ** What the closed forms add to the log *)

Section Observations.

Context {KN : KeyNotation}.

Lemma invocations_app l1 l2 : invocations (l1 ++ l2) = invocations l1 ++ invocations l2.
Proof. apply flat_map_app. Qed.

Lemma buffers_seen_app l1 l2 : buffers_seen (l1 ++ l2) = buffers_seen l1 ++ buffers_seen l2.
Proof. apply flat_map_app. Qed.

Lemma logged_errors_app l1 l2 :
  logged_errors (l1 ++ l2) = logged_errors l1 ++ logged_errors l2.
Proof. apply flat_map_app. Qed.

Lemma invocations_resetWorld w :
  invocations (log (host (resetWorld w))) = invocations (log (host w)).
Proof.
  unfold resetWorld. cbn. unfold invocations. cbn. rewrite flat_map_app.
  destruct (_ && _); reflexivity.
Qed.

Lemma buffers_seen_resetWorld w :
  buffers_seen (log (host (resetWorld w))) = buffers_seen (log (host w)).
Proof.
  unfold resetWorld. cbn. unfold buffers_seen. cbn. rewrite flat_map_app.
  destruct (_ && _); reflexivity.
Qed.

Lemma logged_errors_resetWorld w :
  logged_errors (log (host (resetWorld w))) = logged_errors (log (host w)).
Proof.
  unfold resetWorld. cbn. unfold logged_errors. cbn. rewrite flat_map_app.
  destruct (_ && _); reflexivity.
Qed.

Lemma invocations_invokedWorld bm w :
  invocations (log (host (invokedWorld bm w))) =
  (bm_command bm, bm_event bm) :: invocations (log (host w)).
Proof.
  unfold invokedWorld. cbn. unfold invocations. cbn. rewrite flat_map_app.
  destruct (bm_command bm (bm_event bm)); reflexivity.
Qed.

Lemma buffers_seen_invokedWorld bm w :
  buffers_seen (log (host (invokedWorld bm w))) = buffers_seen (log (host w)).
Proof.
  unfold invokedWorld. cbn. unfold buffers_seen. cbn. rewrite flat_map_app.
  destruct (bm_command bm (bm_event bm)); reflexivity.
Qed.

Lemma invocations_accumulatedWorld e w :
  invocations (log (host (accumulatedWorld e w))) = invocations (log (host w)).
Proof.
  unfold accumulatedWorld. cbn. unfold invocations. cbn. rewrite flat_map_app.
  destruct (onSequenceUpdate (this w)); reflexivity.
Qed.

Lemma buffers_seen_accumulatedWorld e w :
  buffers_seen (log (host (accumulatedWorld e w))) =
  (_sequence (this w) ++ stringify e)%string :: buffers_seen (log (host w)).
Proof.
  unfold accumulatedWorld. cbn. unfold buffers_seen. cbn. rewrite flat_map_app.
  destruct (onSequenceUpdate (this w)); reflexivity.
Qed.

Lemma logged_errors_accumulatedWorld e w :
  logged_errors (log (host (accumulatedWorld e w))) = logged_errors (log (host w)).
Proof.
  unfold accumulatedWorld. cbn. unfold logged_errors. cbn. rewrite flat_map_app.
  destruct (onSequenceUpdate (this w)); reflexivity.
Qed.

Lemma invocations_armedWorld e w :
  invocations (log (host (armedWorld e w))) = invocations (log (host w)).
Proof. reflexivity. Qed.

Lemma buffers_seen_armedWorld e w :
  buffers_seen (log (host (armedWorld e w))) = buffers_seen (log (host w)).
Proof. reflexivity. Qed.

Lemma logged_errors_armedWorld e w :
  logged_errors (log (host (armedWorld e w))) = logged_errors (log (host w)).
Proof. reflexivity. Qed.

Lemma logged_errors_invokedWorld bm w :
  logged_errors (log (host (invokedWorld bm w))) =
  match bm_command bm (bm_event bm) with
  | Returns => logged_errors (log (host w))
  | Throws error => error :: logged_errors (log (host w))
  end.
Proof.
  unfold invokedWorld. cbn. unfold logged_errors. rewrite flat_map_app.
  destruct (bm_command bm (bm_event bm)); reflexivity.
Qed.

End Observations.


(** ** The replay happens at most once *)

Section Replay.

Context {KN : KeyNotation}.

(** With an empty holder a pass never calls [handleKeydown] again. *)
Lemma handleKeydown_empty_holder d e w :
  prevBestMatchCommand (this w) = None ->
  handleKeydown (S d) e w = handleKeydown 1 e w
  /\ fst (handleKeydown 1 e w) = Normal tt
  /\ (passes (log (host (snd (handleKeydown 1 e w))))
      <= passes (log (host w)) + 1)%nat.
Proof.
  intros Hp.
  destruct (isTrusted e) eqn:H1;
    [|rewrite !handleKeydown_untrusted by assumption; cbn; repeat split; lia].
  destruct (falsy (stringify e)) eqn:H2;
    [rewrite !handleKeydown_unwritable by assumption; cbn; repeat split; lia|].
  destruct (isComposing e) eqn:H3.
  { rewrite !handleKeydown_composing by assumption. cbn [fst snd].
    repeat split. unfold passes. rewrite buffers_seen_resetWorld. cbn. lia. }
  rewrite !handleKeydown_pass by assumption. cbn zeta.
  set (w1 := accumulatedWorld e w).
  assert (Hprev : prevBestMatchCommand (this w1) =
                  if (0 <? JSSet.size (filtered (this w1)))%nat
                  then exactMatch (bindings (this w))
                         (_sequence (this w) ++ stringify e) e
                         (filtered (this w)) None
                  else prevBestMatchCommand (this w)) by reflexivity.
  pose proof (buffers_seen_accumulatedWorld e w) as Hb. fold w1 in Hb.
  clearbody w1. rewrite Hp in Hprev. unfold JSSet.size, passes in *.
  destruct (filtered (this w1)) as [|k1 [|k2 f']]; cbn in Hprev;
    rewrite Hprev; [|destruct (exactMatch _ _ _ _ _)..]; cbn [List.length Nat.ltb Nat.leb Nat.eqb fst snd];
    repeat split;
    rewrite ?buffers_seen_resetWorld, ?buffers_seen_invokedWorld,
      ?buffers_seen_armedWorld, ?Hb;
    cbn [List.length]; lia.
Qed.

(** After a pass with a full holder and no candidate, the world is one
    that [backToInitial] left: one more pass is all that can follow. *)
Lemma handleKeydown_after_reset (e : KeyboardEvent) (n : nat) (w0 : World) :
  handleKeydown (S n) e (resetWorld w0) = handleKeydown 1 e (resetWorld w0)
  /\ fst (handleKeydown 1 e (resetWorld w0)) = Normal tt
  /\ (passes (log (host (snd (handleKeydown 1 e (resetWorld w0)))))
      <= passes (log (host (resetWorld w0))) + 1)%nat.
Proof. apply handleKeydown_empty_holder. reflexivity. Qed.

(** Nesting budget [max_depth] is enough. *)
Lemma handleKeydown_depth (d : nat) (e : KeyboardEvent) (w : World) :
  handleKeydown (S (S d)) e w = handleKeydown max_depth e w
  /\ fst (handleKeydown max_depth e w) = Normal tt.
Proof.
  split; unfold max_depth.
  all: destruct (isTrusted e) eqn:H1;
    [|rewrite ?handleKeydown_untrusted by assumption; reflexivity].
  all: destruct (falsy (stringify e)) eqn:H2;
    [rewrite ?handleKeydown_unwritable by assumption; reflexivity|].
  all: destruct (isComposing e) eqn:H3;
    [rewrite ?handleKeydown_composing by assumption; reflexivity|].
  all: rewrite !handleKeydown_pass by assumption; cbn zeta.
  all: set (w1 := accumulatedWorld e w) in *; clearbody w1.
  all: unfold JSSet.size.
  all: destruct (prevBestMatchCommand (this w1)) as [bm|];
    destruct (filtered (this w1)) as [|k1 [|k2 f']];
    cbn [List.length Nat.ltb Nat.leb Nat.eqb fst snd]; try reflexivity.
  - exact (proj1 (handleKeydown_after_reset e d (invokedWorld bm w1))).
  - exact (proj1 (proj2 (handleKeydown_after_reset e 0 (invokedWorld bm w1)))).
Qed.

(** C10.  Processing one key event terminates, and re-enters
    [handleKeydown] at most once: nesting budget [max_depth] = 2 is never
    exhausted and no larger budget changes the result; one call makes at
    most two passes; and on a world that [backToInitial] has just left, a
    single pass already suffices, so the replayed pass cannot replay
    again. *)
Theorem handleKeydown_replays_once (d : nat) (e : KeyboardEvent) (w : World) :
  handleKeydown (S (S d)) e w = handleKeydown max_depth e w
  /\ fst (handleKeydown max_depth e w) = Normal tt
  /\ (passes (log (host (snd (handleKeydown max_depth e w))))
      <= passes (log (host w)) + 2)%nat
  /\ handleKeydown (S d) e (resetWorld w) = handleKeydown 1 e (resetWorld w)
  /\ fst (handleKeydown 1 e (resetWorld w)) = Normal tt.
Proof.
  split; [exact (proj1 (handleKeydown_depth d e w))|].
  split; [exact (proj2 (handleKeydown_depth d e w))|].
  split;
    [|split; [exact (proj1 (handleKeydown_after_reset e d w))
             |exact (proj1 (proj2 (handleKeydown_after_reset e 0 w)))]].
  (* at most two passes: case analysis on the guards and on the outcome of
     the first pass *)
  unfold max_depth.
  destruct (isTrusted e) eqn:H1;
    [|rewrite handleKeydown_untrusted by assumption; cbn [snd]; lia].
  destruct (falsy (stringify e)) eqn:H2;
    [rewrite handleKeydown_unwritable by assumption; cbn [snd]; lia|].
  destruct (isComposing e) eqn:H3.
  { rewrite handleKeydown_composing by assumption. cbn [snd].
    unfold passes. rewrite buffers_seen_resetWorld. cbn. lia. }
  rewrite handleKeydown_pass by assumption. cbn zeta.
  pose proof (buffers_seen_accumulatedWorld e w) as Hb.
  set (w1 := accumulatedWorld e w) in *. clearbody w1.
  unfold JSSet.size, passes in *.
  destruct (prevBestMatchCommand (this w1)) as [bm|];
    destruct (filtered (this w1)) as [|k1 [|k2 f']];
    cbn [List.length Nat.ltb Nat.leb Nat.eqb fst snd];
    rewrite ?buffers_seen_armedWorld, ?buffers_seen_resetWorld,
      ?buffers_seen_invokedWorld, ?Hb; cbn [List.length]; try lia.
  (* the replay: one more pass from the reset world *)
  pose proof (proj2 (proj2 (handleKeydown_after_reset e 0 (invokedWorld bm w1))))
    as Hle.
  unfold passes in Hle.
  rewrite buffers_seen_resetWorld, buffers_seen_invokedWorld, Hb in Hle.
  cbn [List.length] in Hle. lia.
Qed.

End Replay.

(** ** The loop of [handleKeydown] is a filter *)

Section Narrowing.

Lemma filter_filter_and {A} (p q : A -> bool) (l : list A) :
  filter p (filter q l) = filter (fun x => q x && p x) l.
Proof.
  induction l as [|x l IH]; [reflexivity|]. cbn.
  destruct (q x); cbn; [destruct (p x)|]; now rewrite IH.
Qed.

Lemma narrowed_general b s ks : forall f,
  narrowed b s ks f =
  filter (fun x => keeps b s x || negb (JSSet.has x ks)) f.
Proof.
  induction ks as [|k ks IH]; intros f.
  - cbn. symmetry. rewrite <- (filter_ext (fun _ => true)).
    + induction f as [|x f IHf]; cbn; congruence.
    + intros x. now rewrite orb_true_r.
  - change (narrowed b s (k :: ks) f)
      with (narrowed b s ks (if keeps b s k then f else JSSet.delete k f)).
    rewrite IH.
    destruct (keeps b s k) eqn:Hk.
    + apply filter_ext. intros x. cbn.
      destruct (String.eqb_spec x k) as [->|]; [rewrite Hk|]; reflexivity.
    + unfold JSSet.delete. rewrite filter_filter_and.
      apply filter_ext. intros x. cbn.
      destruct (String.eqb_spec x k) as [->|]; [rewrite Hk|]; reflexivity.
Qed.

Lemma narrowed_filter b s f : narrowed b s f f = filter (keeps b s) f.
Proof.
  rewrite narrowed_general. apply filter_ext_in. intros x Hx.
  apply JSSetFacts.has_In in Hx. rewrite Hx. apply orb_false_r.
Qed.

Lemma exactMatch_general b s e ks : forall best,
  exactMatch b s e ks best =
  if JSSet.has s ks then
    match JSMap.get s b with
    | Some command => Some {| bm_key := s; bm_command := command; bm_event := e |}
    | None => best
    end
  else best.
Proof.
  induction ks as [|k ks IH]; intros best; [reflexivity|].
  change (exactMatch b s e (k :: ks) best)
    with (exactMatch b s e ks
            (if String.eqb s k then
               match JSMap.get k b with
               | Some command =>
                   Some {| bm_key := k; bm_command := command; bm_event := e |}
               | None => best
               end
             else best)).
  rewrite IH. cbn.
  destruct (String.eqb_spec s k) as [<-|]; cbn; [|reflexivity].
  destruct (JSMap.get s b); destruct (JSSet.has s ks); reflexivity.
Qed.

(** On a consistent candidate set the narrowing keeps exactly the
    candidates that start with the new buffer. *)
Lemma narrowed_consistent (m : Mousetrap) (v : string) k :
  candidates_consistent m ->
  In k (narrowed (bindings m) (_sequence m ++ v) (filtered m) (filtered m)) <->
  In k (JSMap.keys (bindings m)) /\ startsWith k (_sequence m ++ v) = true.
Proof.
  intros Hc. rewrite narrowed_filter, filter_In, (Hc k). unfold keeps.
  split.
  - intros [[Hk _] Hs]. apply andb_true_iff in Hs. tauto.
  - intros [Hk Hs]. split; [split; [assumption|]|].
    + eapply startsWith_shorter; eassumption.
    + rewrite Hs. apply JSMapFacts.In_keys_get in Hk as [c Hc']. rewrite Hc'.
      now rewrite andb_false_r.
Qed.

Lemma narrowed_NoDup b s f : NoDup f -> NoDup (narrowed b s f f).
Proof. rewrite narrowed_filter. apply NoDup_filter. Qed.

End Narrowing.

(** ** The invariant of reachable worlds *)

Section Invariant.

Context {KN : KeyNotation}.

Lemma Inv_new options : Inv (new_World options).
Proof.
  constructor; cbn; try (intros ? []); try constructor; auto.
  cbn. tauto.
Qed.

Lemma keys_nonempty {V} (b : JSMap.t V) k :
  In k (JSMap.keys b) -> (JSMap.size b =? 0)%nat = false /\ b <> [].
Proof. destruct b; [intros [] | split; [reflexivity | discriminate]]. Qed.

(** [backToInitial] leaves no timer when every armed timer is the one
    the object remembers. *)
Lemma timers_resetWorld w :
  (forall t, In t (timers (host w)) -> timer (this w) = Some (timer_id t)) ->
  timers (host (resetWorld w)) = [].
Proof.
  intros H. unfold resetWorld. cbn. destruct (timer (this w)) as [id|].
  - cbn. induction (timers (host w)) as [|t ts IH]; [reflexivity|]. cbn.
    assert (Some id = Some (timer_id t)) as E by (apply H; now left).
    injection E as ->. rewrite Nat.eqb_refl. cbn. apply IH.
    intros t' Ht'. apply H. now right.
  - cbn. destruct (timers (host w)) as [|t ts]; [reflexivity|].
    specialize (H t (or_introl eq_refl)). discriminate.
Qed.

(** Any world that carries the object fields of a reset, no timer and
    the right listener flag is well formed. *)
Lemma Inv_after_reset w w' :
  NoDup (JSMap.keys (bindings (this w))) ->
  this w' = this (resetWorld w) ->
  timers (host w') = [] ->
  listening (host w') = negb (JSMap.size (bindings (this w)) =? 0)%nat ->
  Inv w'.
Proof.
  intros Hk Ht Hts Hl.
  constructor; rewrite ?Ht, ?Hts; cbn; auto.
  - apply JSSetFacts.NoDup_of_iterable.
  - intros k. cbn. rewrite JSSetFacts.In_of_iterable, startsWith_empty. tauto.
  - intros ? [].
  - intros ? [].
Qed.

Lemma Inv_resetWorld w :
  NoDup (JSMap.keys (bindings (this w))) ->
  (forall t, In t (timers (host w)) -> timer (this w) = Some (timer_id t)) ->
  listening (host w) = negb (JSMap.size (bindings (this w)) =? 0)%nat ->
  Inv (resetWorld w).
Proof.
  intros Hk Ht Hl. apply (Inv_after_reset w); auto using timers_resetWorld.
Qed.

(** Clearing [this.timer] clears every armed timer. *)
Lemma cleared_own_timer w :
  Inv w -> cleared (timer (this w)) (timers (host w)) = [].
Proof.
  intros I.
  destruct (timers (host w)) as [|t ts] eqn:E.
  - destruct (timer (this w)); reflexivity.
  - pose proof (inv_one_timer w I) as Hl. rewrite E in Hl.
    destruct ts; [|cbn in Hl; lia].
    destruct (inv_timer w I t) as [Hid _]; [rewrite E; now left|].
    rewrite Hid. cbn. now rewrite Nat.eqb_refl.
Qed.

Lemma timers_accumulatedWorld e w :
  Inv w -> timers (host (accumulatedWorld e w)) = [].
Proof. apply cleared_own_timer. Qed.

Lemma Inv_armedWorld e w :
  NoDup (JSMap.keys (bindings (this w))) ->
  NoDup (filtered (this w)) ->
  candidates_consistent (this w) ->
  timers (host w) = [] ->
  listening (host w) = negb (JSMap.size (bindings (this w)) =? 0)%nat ->
  filtered (this w) <> [] ->
  Inv (armedWorld e w).
Proof.
  intros Hk Hf Hc Ht Hl Hne.
  constructor; cbn; rewrite ?Ht; cbn; auto.
  - intros t [<-|[]]. cbn. auto.
  - intros t [<-|[]]. cbn. lia.
  - intros Hb. destruct (filtered (this w)) as [|k f] eqn:E; [congruence|].
    destruct (Hc k) as [Hin _]. rewrite E in Hin.
    destruct Hin as [Hin _]; [now left|]. rewrite Hb in Hin. destruct Hin.
Qed.

Lemma Inv_handleKeydown d e : forall w, Inv w -> Inv (snd (handleKeydown d e w)).
Proof.
  induction d as [|d IH]; intros w I; [exact I|].
  destruct (isTrusted e) eqn:H1;
    [|rewrite handleKeydown_untrusted by assumption; exact I].
  destruct (falsy (stringify e)) eqn:H2;
    [rewrite handleKeydown_unwritable by assumption; exact I|].
  destruct (isComposing e) eqn:H3.
  { rewrite handleKeydown_composing by assumption. cbn [snd].
    apply Inv_resetWorld; cbn.
    - apply I.
    - intros t Ht. apply (inv_timer w I).
      destruct (timer (this w)); [apply filter_In in Ht; tauto | exact Ht].
    - apply I. }
  rewrite handleKeydown_pass by assumption. cbn zeta.
  pose proof (timers_accumulatedWorld e w I) as Hts.
  assert (Hk1 : NoDup (JSMap.keys (bindings (this (accumulatedWorld e w)))))
    by apply I.
  assert (Hf1 : NoDup (filtered (this (accumulatedWorld e w))))
    by (apply narrowed_NoDup, I).
  assert (Hc1 : candidates_consistent (this (accumulatedWorld e w)))
    by (intros k; apply (narrowed_consistent (this w)), I).
  assert (Hl1 : listening (host (accumulatedWorld e w)) =
                negb (JSMap.size (bindings (this (accumulatedWorld e w))) =? 0)%nat)
    by apply I.
  set (w1 := accumulatedWorld e w) in *. clearbody w1.
  assert (Hreset : forall w2, this w2 = this w1 -> timers (host w2) = [] ->
                               listening (host w2) = listening (host w1) ->
                               Inv (resetWorld w2)).
  { intros w2 E1 E2 E3. apply Inv_resetWorld; rewrite ?E1, ?E2, ?E3; auto.
    intros ? []. }
  unfold JSSet.size.
  destruct (prevBestMatchCommand (this w1)) as [bm|];
    destruct (filtered (this w1)) as [|k1 [|k2 f']] eqn:Ef;
    cbn [List.length Nat.ltb Nat.leb Nat.eqb snd];
    try (apply IH); try (apply Hreset; auto; fail);
    try (apply Inv_armedWorld; rewrite ?Ef; auto; discriminate).
Qed.

Lemma bindStep_fields m entry :
  _sequence (bindStep m entry) = _sequence m
  /\ prevBestMatchCommand (bindStep m entry) = prevBestMatchCommand m
  /\ timer (bindStep m entry) = timer m
  /\ flushInterval (bindStep m entry) = flushInterval m
  /\ onSequenceUpdate (bindStep m entry) = onSequenceUpdate m.
Proof. unfold bindStep. destruct (normalizeSequence _); cbn; auto. Qed.

Lemma bindStep_wf m entry :
  NoDup (JSMap.keys (bindings m)) -> NoDup (filtered m) ->
  candidates_consistent m ->
  NoDup (JSMap.keys (bindings (bindStep m entry)))
  /\ NoDup (filtered (bindStep m entry))
  /\ candidates_consistent (bindStep m entry).
Proof.
  intros Hk Hf Hc. unfold bindStep.
  destruct (normalizeSequence (fst entry)) as [n|]; [|auto].
  split; [|split]; cbn [bindings filtered _sequence with_filtered with_bindings].
  - now apply JSMapFacts.NoDup_keys_set.
  - destruct (startsWith n (_sequence m)); [apply JSSetFacts.NoDup_add|]; assumption.
  - intros k. cbn [bindings filtered _sequence with_filtered with_bindings].
    rewrite JSMapFacts.keys_set.
    destruct (startsWith n (_sequence m)) eqn:E.
    + rewrite JSSetFacts.In_add, (Hc k). intuition (subst; auto).
    + rewrite (Hc k). intuition (subst; congruence).
Qed.

Lemma bound_fields entries : forall m,
  _sequence (fold_left bindStep entries m) = _sequence m
  /\ prevBestMatchCommand (fold_left bindStep entries m) = prevBestMatchCommand m
  /\ timer (fold_left bindStep entries m) = timer m
  /\ flushInterval (fold_left bindStep entries m) = flushInterval m
  /\ onSequenceUpdate (fold_left bindStep entries m) = onSequenceUpdate m.
Proof.
  induction entries as [|x entries IH]; intros m; cbn; [auto|].
  destruct (IH (bindStep m x)) as (-> & -> & -> & -> & ->).
  apply bindStep_fields.
Qed.

Lemma bound_wf entries : forall m,
  NoDup (JSMap.keys (bindings m)) -> NoDup (filtered m) ->
  candidates_consistent m ->
  NoDup (JSMap.keys (bindings (fold_left bindStep entries m)))
  /\ NoDup (filtered (fold_left bindStep entries m))
  /\ candidates_consistent (fold_left bindStep entries m).
Proof.
  induction entries as [|x entries IH]; intros m Hk Hf Hc; cbn; [auto|].
  destruct (bindStep_wf m x Hk Hf Hc) as (? & ? & ?). now apply IH.
Qed.

Lemma unbindStep_fields m x :
  _sequence (unbindStep m x) = _sequence m
  /\ prevBestMatchCommand (unbindStep m x) = prevBestMatchCommand m
  /\ timer (unbindStep m x) = timer m
  /\ flushInterval (unbindStep m x) = flushInterval m
  /\ onSequenceUpdate (unbindStep m x) = onSequenceUpdate m.
Proof. unfold unbindStep. destruct (normalizeSequence _); cbn; auto. Qed.

Lemma unbindStep_wf m x :
  NoDup (JSMap.keys (bindings m)) -> NoDup (filtered m) ->
  candidates_consistent m ->
  NoDup (JSMap.keys (bindings (unbindStep m x)))
  /\ NoDup (filtered (unbindStep m x))
  /\ candidates_consistent (unbindStep m x).
Proof.
  intros Hk Hf Hc. unfold unbindStep.
  destruct (normalizeSequence x) as [n|]; [|auto].
  split; [|split]; cbn [bindings filtered _sequence with_filtered with_bindings].
  - now apply JSMapFacts.NoDup_keys_delete.
  - now apply JSSetFacts.NoDup_delete.
  - intros k. cbn [bindings filtered _sequence with_filtered with_bindings].
    rewrite JSMapFacts.keys_delete, JSSetFacts.In_delete, (Hc k).
    tauto.
Qed.

Lemma unbound_fields sequences : forall m,
  _sequence (fold_left unbindStep sequences m) = _sequence m
  /\ prevBestMatchCommand (fold_left unbindStep sequences m) = prevBestMatchCommand m
  /\ timer (fold_left unbindStep sequences m) = timer m
  /\ flushInterval (fold_left unbindStep sequences m) = flushInterval m
  /\ onSequenceUpdate (fold_left unbindStep sequences m) = onSequenceUpdate m.
Proof.
  induction sequences as [|x sequences IH]; intros m; cbn; [auto|].
  destruct (IH (unbindStep m x)) as (-> & -> & -> & -> & ->).
  apply unbindStep_fields.
Qed.

Lemma unbound_wf sequences : forall m,
  NoDup (JSMap.keys (bindings m)) -> NoDup (filtered m) ->
  candidates_consistent m ->
  NoDup (JSMap.keys (bindings (fold_left unbindStep sequences m)))
  /\ NoDup (filtered (fold_left unbindStep sequences m))
  /\ candidates_consistent (fold_left unbindStep sequences m).
Proof.
  induction sequences as [|x sequences IH]; intros m Hk Hf Hc; cbn; [auto|].
  destruct (unbindStep_wf m x Hk Hf Hc) as (? & ? & ?). now apply IH.
Qed.

(** [emitChange] re-establishes the invariant after the table changed
    while buffer, holder and timer were left alone. *)
Lemma Inv_emitChangeWorld w w0 :
  Inv w ->
  NoDup (JSMap.keys (bindings (this w0))) ->
  NoDup (filtered (this w0)) ->
  candidates_consistent (this w0) ->
  prevBestMatchCommand (this w0) = prevBestMatchCommand (this w) ->
  timer (this w0) = timer (this w) ->
  flushInterval (this w0) = flushInterval (this w) ->
  timers (host w0) = timers (host w) ->
  nextTimerId (host w0) = nextTimerId (host w) ->
  Inv (emitChangeWorld w0).
Proof.
  intros I Hk Hf Hc Hp Ht Hfi Hts Hn. unfold emitChangeWorld.
  destruct (JSMap.size (bindings (this w0)) =? 0)%nat eqn:E.
  - apply (Inv_after_reset w0); cbn [this host with_listening timers listening];
      auto.
    + apply timers_resetWorld. intros t Hin. rewrite Ht. apply I. now rewrite <- Hts.
    + now rewrite E.
  - constructor; cbn; rewrite ?Hts, ?Hp, ?Ht, ?Hfi, ?Hn, ?E; auto; try apply I.
    intros Hb. rewrite Hb in E. discriminate.
Qed.

Lemma Inv_bind entries w : Inv w -> Inv (snd (bind entries w)).
Proof.
  intros I. rewrite bind_eq. cbn [snd].
  destruct (bound_wf entries (this w)) as (? & ? & ?); try apply I.
  destruct (bound_fields entries (this w)) as (? & ? & ? & ? & ?).
  apply (Inv_emitChangeWorld w); auto.
Qed.

Lemma Inv_unbind sequences w : Inv w -> Inv (snd (unbind sequences w)).
Proof.
  intros I. rewrite unbind_eq. cbn [snd].
  destruct (unbound_wf sequences (this w)) as (? & ? & ?); try apply I.
  destruct (unbound_fields sequences (this w)) as (? & ? & ? & ? & ?).
  apply (Inv_emitChangeWorld w); auto.
Qed.

Lemma Inv_reset w : Inv w -> Inv (snd (reset w)).
Proof.
  intros I. rewrite reset_eq. cbn [snd].
  set (w0 := {| this := with_bindings JSMap.empty (this w); host := host w |}).
  apply (Inv_after_reset w0); [constructor | reflexivity | | reflexivity].
  unfold emitChangeWorld. cbn [w0 this bindings with_bindings JSMap.size
                               JSMap.empty List.length Nat.eqb host
                               with_listening timers].
  apply timers_resetWorld. cbn. apply I.
Qed.

Lemma find_one_timer w id t :
  Inv w ->
  find (fun t => Nat.eqb (timer_id t) id) (timers (host w)) = Some t ->
  timers (host w) = [t] /\ timer_id t = id.
Proof.
  intros I Hf. pose proof (inv_one_timer w I) as Hl.
  destruct (timers (host w)) as [|t0 [|t1 ts]]; cbn in *; [discriminate| |lia].
  destruct (Nat.eqb_spec (timer_id t0) id); [|discriminate].
  injection Hf as <-. auto.
Qed.

Lemma timers_expiredWorld w id t :
  Inv w ->
  find (fun t => Nat.eqb (timer_id t) id) (timers (host w)) = Some t ->
  timers (host (expiredWorld id w)) = [].
Proof.
  intros I Hf. destruct (find_one_timer w id t I Hf) as [E <-].
  unfold expiredWorld. cbn. rewrite E. cbn. now rewrite Nat.eqb_refl.
Qed.

Lemma Inv_fireTimer id w : Inv w -> Inv (snd (fireTimer id w)).
Proof.
  intros I. rewrite fireTimer_eq.
  destruct (find _ _) as [t|] eqn:Hf; [|exact I].
  pose proof (timers_expiredWorld w id t I Hf) as Hts.
  destruct (timer_handler t); cbn [snd]; apply Inv_resetWorld;
    cbn [invokedWorld this host timers with_log listening]; rewrite ?Hts;
    try (intros ? []); apply I.
Qed.

Lemma Inv_exec a w : Inv w -> Inv (exec a w).
Proof.
  intros I. unfold exec. destruct a as [e|entries|sequences| |id]; cbn [step].
  - unfold dispatchEvent, bind_eff, gets_host, when.
    destruct (listening (host w)); [apply Inv_handleKeydown, I | exact I].
  - unfold bind_eff at 1. pose proof (Inv_bind entries w I) as H.
    rewrite bind_eq in *. exact H.
  - now apply Inv_unbind.
  - now apply Inv_reset.
  - now apply Inv_fireTimer.
Qed.

Lemma Inv_run actions : forall w, Inv w -> Inv (run actions w).
Proof.
  induction actions as [|a actions IH]; intros w I; [exact I|].
  cbn. apply IH, Inv_exec, I.
Qed.

Lemma Inv_reachable options actions : Inv (run actions (new_World options)).
Proof. apply Inv_run, Inv_new. Qed.

End Invariant.

(** ** Timers *)

Section Timers.

Context {KN : KeyNotation}.

Lemma Idle_resetWorld w :
  (forall t, In t (timers (host w)) -> timer (this w) = Some (timer_id t)) ->
  Idle (resetWorld w).
Proof.
  intros H. repeat split; cbn.
  - apply JSSetFacts.In_of_iterable.
  - apply JSSetFacts.In_of_iterable.
  - apply timers_resetWorld, H.
Qed.

(** A timer alive after a key token was processed is new. *)
Lemma handleKeydown_timers d e : forall w t,
  Inv w ->
  isTrusted e = true ->
  falsy (stringify e) = false ->
  In t (timers (host (snd (handleKeydown d e w)))) ->
  (In t (timers (host w)) /\ d = 0%nat)
  \/ (nextTimerId (host w) <= timer_id t)%nat.
Proof.
  induction d as [|d IH]; intros w t I H1 H2 Ht; [now left|]. right.
  destruct (isComposing e) eqn:H3.
  { rewrite handleKeydown_composing in Ht by assumption. cbn [snd] in Ht.
    rewrite timers_resetWorld in Ht; [destruct Ht|].
    cbn. intros t' Ht'. apply (inv_timer w I).
    destruct (timer (this w)); [apply filter_In in Ht'; tauto | exact Ht']. }
  rewrite handleKeydown_pass in Ht by assumption. cbn zeta in Ht.
  pose proof (timers_accumulatedWorld e w I) as Hts.
  assert (I1 : forall bm, Inv (resetWorld (invokedWorld bm (accumulatedWorld e w)))).
  { intros bm. apply Inv_resetWorld;
      cbn [invokedWorld this host timers with_log listening];
      rewrite ?Hts; try (intros ? []); apply I. }
  assert (Hn1 : forall bm,
             nextTimerId (host (resetWorld (invokedWorld bm (accumulatedWorld e w)))) =
             nextTimerId (host w)) by reflexivity.
  assert (Ht1 : forall bm,
             timers (host (resetWorld (invokedWorld bm (accumulatedWorld e w)))) = []).
  { intros bm. apply timers_resetWorld. cbn [invokedWorld this host timers with_log].
    rewrite Hts. intros ? []. }
  assert (Ht2 : timers (host (resetWorld (accumulatedWorld e w))) = []).
  { apply timers_resetWorld. rewrite Hts. intros ? []. }
  assert (Hn : nextTimerId (host (accumulatedWorld e w)) = nextTimerId (host w))
    by reflexivity.
  set (w1 := accumulatedWorld e w) in *. clearbody w1.
  unfold JSSet.size in Ht.
  destruct (prevBestMatchCommand (this w1)) as [bm|];
    destruct (filtered (this w1)) as [|k1 [|k2 f']];
    cbn [List.length Nat.ltb Nat.leb Nat.eqb snd] in Ht;
    rewrite ?Ht1, ?Ht2 in Ht; try (destruct Ht; fail);
    try (unfold armedWorld in Ht; cbn in Ht; rewrite Hts in Ht;
         destruct Ht as [<-|[]]; cbn; lia).
  apply IH in Ht; [|apply I1|assumption..].
  rewrite Ht1, Hn1 in Ht. destruct Ht as [[[] _]|Ht]. exact Ht.
Qed.

(** C9.  At most one Pending Timer is outstanding at any time.  In every
    reachable world at most one timer is armed; processing a key token
    (a trusted event with a writable key, delivered to the registered
    listener) leaves armed only timers created during that processing,
    so the previous timer has been cancelled; cancelling [this.timer],
    the first thing [handleKeydown] does, and every [backToInitial],
    leave no timer armed; a timer is armed only in a world without
    timers (the pass starts by clearing). *)
Theorem one_pending_timer (options : option MousetrapOptions)
    (actions : list Action) (e : KeyboardEvent) (t : Timer) :
  let w := run actions (new_World options) in
  (List.length (timers (host w)) <= 1)%nat
  /\ timers (host (snd (clearTimeout (timer (this w)) w))) = []
  /\ timers (host (snd (backToInitial w))) = []
  /\ timers (host (exec Reset w)) = []
  /\ timers (host (accumulatedWorld e w)) = []
  /\ (listening (host w) = true ->
      isTrusted e = true ->
      falsy (stringify e) = false ->
      In t (timers (host (exec (Keydown e) w))) ->
      (nextTimerId (host w) <= timer_id t)%nat).
Proof.
  intros w. assert (I : Inv w) by apply Inv_reachable.
  split; [apply I|].
  split; [rewrite clearTimeout_eq; cbn; now apply cleared_own_timer|].
  split; [rewrite backToInitial_eq; cbn [snd]; apply timers_resetWorld, I|].
  split.
  { pose proof (Inv_exec Reset w I) as I'. apply (inv_empty_table _ I').
    unfold exec. cbn [step]. rewrite reset_eq. reflexivity. }
  split; [now apply timers_accumulatedWorld|].
  intros Hl H1 H2 Ht. unfold exec in Ht. cbn [step] in Ht.
  unfold dispatchEvent, bind_eff, gets_host, when in Ht. rewrite Hl in Ht.
  apply handleKeydown_timers in Ht; [|assumption..].
  unfold max_depth in Ht. destruct Ht as [[_ Hd]|Ht]; [discriminate | exact Ht].
Qed.

Lemma flushInterval_handleKeydown d e : forall w,
  flushInterval (this (snd (handleKeydown d e w))) = flushInterval (this w).
Proof.
  induction d as [|d IH]; intros w; [reflexivity|].
  destruct (isTrusted e) eqn:H1;
    [|now rewrite handleKeydown_untrusted by assumption].
  destruct (falsy (stringify e)) eqn:H2;
    [now rewrite handleKeydown_unwritable by assumption|].
  destruct (isComposing e) eqn:H3;
    [now rewrite handleKeydown_composing by assumption|].
  rewrite handleKeydown_pass by assumption. cbn zeta.
  assert (H : flushInterval (this (accumulatedWorld e w)) = flushInterval (this w))
    by reflexivity.
  set (w1 := accumulatedWorld e w) in *. clearbody w1. unfold JSSet.size.
  destruct (prevBestMatchCommand (this w1)) as [bm|];
    destruct (filtered (this w1)) as [|k1 [|k2 f']];
    cbn [List.length Nat.ltb Nat.leb Nat.eqb snd]; rewrite ?IH; exact H.
Qed.

Lemma flushInterval_exec a w :
  flushInterval (this (exec a w)) = flushInterval (this w).
Proof.
  unfold exec. destruct a as [e|entries|sequences| |id]; cbn [step].
  - unfold dispatchEvent, bind_eff, gets_host, when.
    destruct (listening (host w)); [apply flushInterval_handleKeydown | reflexivity].
  - unfold bind_eff at 1. rewrite bind_eq. cbn [snd ret]. unfold emitChangeWorld.
    destruct (_ =? _)%nat; cbn; apply bound_fields.
  - rewrite unbind_eq. cbn [snd]. unfold emitChangeWorld.
    destruct (_ =? _)%nat; cbn; apply unbound_fields.
  - rewrite reset_eq. reflexivity.
  - rewrite fireTimer_eq. destruct (find _ _) as [t|]; [|reflexivity].
    destruct (timer_handler t); reflexivity.
Qed.

Lemma flushInterval_run actions : forall w,
  flushInterval (this (run actions w)) = flushInterval (this w).
Proof.
  induction actions as [|a actions IH]; intros w; [reflexivity|].
  change (run (a :: actions) w) with (run actions (exec a w)).
  rewrite IH. apply flushInterval_exec.
Qed.

(** C3.  Expiry of the Pending Timer.  When an armed timer of a reachable
    world fires: with a non-empty Best-Match Holder the held command is
    called (once, with the event it captured) and then [backToInitial]
    runs; with an empty holder only [backToInitial] runs and no command
    is called; either way the matcher is Idle afterwards and nothing is
    thrown.  The timer was armed with the delay given to the constructor,
    and that delay is 1000 when no [flushInterval] is configured. *)
Theorem timer_expiry (options : option MousetrapOptions)
    (actions : list Action) (t : Timer) :
  let w := run actions (new_World options) in
  let w' := exec (TimerFires (timer_id t)) w in
  In t (timers (host w)) ->
  fst (step (TimerFires (timer_id t)) w) = Normal tt
  /\ Idle w'
  /\ match prevBestMatchCommand (this w) with
     | Some bm =>
         w' = resetWorld (invokedWorld bm (expiredWorld (timer_id t) w))
         /\ invocations (log (host w')) =
            (bm_command bm, bm_event bm) :: invocations (log (host w))
     | None =>
         w' = resetWorld (expiredWorld (timer_id t) w)
         /\ invocations (log (host w')) = invocations (log (host w))
     end
  /\ timer_delay t = flushInterval (new_Mousetrap options)
  /\ flushInterval (new_Mousetrap None) = 1000%Z
  /\ (forall notify,
        flushInterval
          (new_Mousetrap
             (Some {| opt_onSequenceUpdate := notify; opt_flushInterval := None |}))
        = 1000%Z).
Proof.
  intros w w' Ht. assert (I : Inv w) by apply Inv_reachable.
  destruct (inv_timer w I t Ht) as (Hid & Hh & Hd).
  assert (Hf : find (fun t' => Nat.eqb (timer_id t') (timer_id t)) (timers (host w))
               = Some t).
  { pose proof (inv_one_timer w I) as Hl.
    destruct (timers (host w)) as [|t0 [|t1 ts]]; cbn in *; [destruct Ht| |lia].
    destruct Ht as [->|[]]. now rewrite Nat.eqb_refl. }
  pose proof (timers_expiredWorld w _ t I Hf) as Hts.
  unfold w', exec. cbn [step]. rewrite fireTimer_eq, Hf, Hh.
  split; [destruct (prevBestMatchCommand (this w)); reflexivity|].
  split.
  { destruct (prevBestMatchCommand (this w)); cbn [orBackToInitial snd];
      apply Idle_resetWorld;
      cbn [invokedWorld this host timers with_log]; rewrite Hts; intros ? []. }
  split.
  { destruct (prevBestMatchCommand (this w)) as [bm|]; cbn [orBackToInitial snd];
      (split; [reflexivity|]);
      rewrite invocations_resetWorld, ?invocations_invokedWorld; reflexivity. }
  split; [|split; reflexivity].
  rewrite Hd. unfold w. rewrite flushInterval_run. reflexivity.
Qed.

(** C6.  A bound command that throws.  The closure that calls a command,
    the only place where commands are called, whether from
    [handleKeydown] or from the timer, always completes normally; it
    leaves the object exactly as a plain [backToInitial] does (empty
    buffer, cleared holder, candidate set reseeded from the table),
    whatever the command did; a thrown error is handed to
    [logger.error]; and no action on the matcher (key event, [bind],
    [unbind], [reset], timer expiry) ever completes by throwing. *)
Theorem command_errors_are_swallowed (bm : BestMatch) (w : World) (a : Action) :
  let w' := snd (runBestMatch bm w) in
  fst (runBestMatch bm w) = Normal tt
  /\ this w' = this (snd (backToInitial w))
  /\ timers (host w') = timers (host (snd (backToInitial w)))
  /\ _sequence (this w') = ""
  /\ prevBestMatchCommand (this w') = None
  /\ filtered (this w') = JSSet.of_iterable (JSMap.keys (bindings (this w)))
  /\ invocations (log (host w')) =
     (bm_command bm, bm_event bm) :: invocations (log (host w))
  /\ logged_errors (log (host w')) =
     match bm_command bm (bm_event bm) with
     | Returns => logged_errors (log (host w))
     | Throws error => error :: logged_errors (log (host w))
     end
  /\ runHandler (HBestMatch bm) = runBestMatch bm
  /\ fst (step a w) = Normal tt.
Proof.
  cbn zeta. rewrite runBestMatch_eq, backToInitial_eq. cbn [fst snd].
  split; [reflexivity|]. split; [reflexivity|]. split; [reflexivity|].
  split; [reflexivity|]. split; [reflexivity|]. split; [reflexivity|].
  split; [rewrite invocations_resetWorld, invocations_invokedWorld; reflexivity|].
  split; [rewrite logged_errors_resetWorld, logged_errors_invokedWorld; reflexivity|].
  split; [reflexivity|].
  destruct a as [e|entries|sequences| |id]; cbn [step].
  - unfold dispatchEvent, bind_eff, gets_host, when.
    destruct (listening (host w)); [|reflexivity].
    exact (proj2 (handleKeydown_depth 0 e w)).
  - unfold bind_eff at 1. rewrite bind_eq. reflexivity.
  - rewrite unbind_eq. reflexivity.
  - rewrite reset_eq. reflexivity.
  - rewrite fireTimer_eq. destruct (find _ _) as [t|]; [|reflexivity].
    destruct (timer_handler t); reflexivity.
Qed.

End Timers.

(** ** Events that are not key tokens, and mutations of the table *)

Section Guards.

Context {KN : KeyNotation}.

(** With nothing bound the matcher is Idle. *)
Lemma Idle_unregistered w :
  Inv w -> listening (host w) = false -> Idle w.
Proof.
  intros I Hl. rewrite (inv_listening w I) in Hl.
  assert (Hb : bindings (this w) = [])
    by (destruct (bindings (this w)); [reflexivity | discriminate]).
  destruct (inv_empty_table w I Hb) as (Hs & Hp & Ht).
  repeat split; auto.
  - intros Hk. apply (inv_filtered w I) in Hk. tauto.
  - intros Hk. apply (inv_filtered w I). rewrite Hs, startsWith_empty. tauto.
Qed.

(** C7, as the code has it.  An untrusted event is ignored entirely: the
    world is left exactly as it was, Idle or not.  A composition-flagged
    event never calls a command; when it is trusted and its key can be
    written it forces the Idle state, and when its key cannot be written
    it is ignored like an untrusted one. *)
Theorem untrusted_ignored_composing_resets (options : option MousetrapOptions)
    (actions : list Action) (e : KeyboardEvent) :
  let w := run actions (new_World options) in
  let w' := exec (Keydown e) w in
  (isTrusted e = false -> w' = w)
  /\ (isComposing e = true ->
      invocations (log (host w')) = invocations (log (host w)))
  /\ (isTrusted e = true -> isComposing e = true ->
      falsy (stringify e) = false -> Idle w')
  /\ (isComposing e = true -> falsy (stringify e) = true -> w' = w).
Proof.
  intros w w'. assert (I : Inv w) by apply Inv_reachable.
  unfold w', exec. cbn [step]. unfold dispatchEvent, bind_eff, gets_host, when.
  unfold max_depth.
  destruct (listening (host w)) eqn:Hl; cbn [snd ret].
  - split; [intros H; now rewrite handleKeydown_untrusted|].
    split; [|split].
    + intros Hc. destruct (isTrusted e) eqn:H1;
        [|now rewrite handleKeydown_untrusted].
      destruct (falsy (stringify e)) eqn:H2;
        [now rewrite handleKeydown_unwritable|].
      rewrite handleKeydown_composing by assumption. cbn [snd].
      now rewrite invocations_resetWorld.
    + intros H1 Hc H2. rewrite handleKeydown_composing by assumption. cbn [snd].
      apply Idle_resetWorld. cbn. intros t Ht. apply (inv_timer w I).
      destruct (timer (this w)); [apply filter_In in Ht; tauto | exact Ht].
    + intros _ H2. now rewrite handleKeydown_unwritable.
  - split; [auto|]. split; [auto|]. split; [|auto].
    intros _ _ _. now apply Idle_unregistered.
Qed.

Lemma Idle_emitChangeWorld w :
  (forall t, In t (timers (host w)) -> timer (this w) = Some (timer_id t)) ->
  (JSMap.size (bindings (this w)) =? 0)%nat = true ->
  Idle (emitChangeWorld w).
Proof.
  intros Ht E. unfold emitChangeWorld. rewrite E.
  destruct (Idle_resetWorld w Ht) as (H1 & H2 & H3 & H4).
  repeat split; auto; apply H2.
Qed.

Lemma reconciled_emitChangeWorld w w0 :
  Inv w ->
  candidates_consistent (this w0) ->
  _sequence (this w0) = _sequence (this w) ->
  prevBestMatchCommand (this w0) = prevBestMatchCommand (this w) ->
  timer (this w0) = timer (this w) ->
  timers (host w0) = timers (host w) ->
  reconciled w (emitChangeWorld w0).
Proof.
  intros I Hc Hs Hp Ht Hts. split.
  - unfold emitChangeWorld. destruct (_ =? _)%nat; [|exact Hc].
    intros k. cbn. rewrite JSSetFacts.In_of_iterable, startsWith_empty. tauto.
  - destruct (JSMap.size (bindings (this (emitChangeWorld w0))) =? 0)%nat eqn:E.
    + assert (E0 : (JSMap.size (bindings (this w0)) =? 0)%nat = true).
      { revert E. unfold emitChangeWorld.
        destruct (JSMap.size (bindings (this w0)) =? 0)%nat eqn:E0; [reflexivity|].
        cbn. now rewrite E0. }
      apply Idle_emitChangeWorld; [|exact E0].
      intros t Hin. rewrite Ht. apply I. now rewrite <- Hts.
    + revert E. unfold emitChangeWorld.
      destruct (JSMap.size (bindings (this w0)) =? 0)%nat eqn:E0; cbn.
      * destruct (bindings (this w0)); [discriminate 1 | discriminate E0].
      * auto.
Qed.

(** C5, as the code has it.  After [bind] and after [unbind], from any
    reachable world, the candidate set holds exactly the bound sequences
    that start with the buffer; the matcher is reset to Idle when the
    table is left empty, and when entries remain the buffer, the holder
    and the pending timer are left as they were.  After [reset] the table
    is empty and the matcher is Idle. *)
Theorem table_mutation_reconciles (options : option MousetrapOptions)
    (actions : list Action) (entries : list (string * Command))
    (sequences : list string) :
  let w := run actions (new_World options) in
  reconciled w (exec (Bind entries) w)
  /\ reconciled w (exec (Unbind sequences) w)
  /\ reconciled w (exec Reset w)
  /\ bindings (this (exec Reset w)) = []
  /\ Idle (exec Reset w).
Proof.
  intros w. assert (I : Inv w) by apply Inv_reachable. unfold exec. cbn [step].
  split; [|split; [|split; [|split]]].
  - unfold bind_eff at 1. rewrite bind_eq. cbn [snd ret].
    destruct (bound_wf entries (this w)) as (? & ? & ?); try apply I.
    destruct (bound_fields entries (this w)) as (? & ? & ? & ? & ?).
    apply reconciled_emitChangeWorld; auto.
  - rewrite unbind_eq. cbn [snd].
    destruct (unbound_wf sequences (this w)) as (? & ? & ?); try apply I.
    destruct (unbound_fields sequences (this w)) as (? & ? & ? & ? & ?).
    apply reconciled_emitChangeWorld; auto.
  - rewrite reset_eq. cbn [snd]. split.
    + intros k. cbn. tauto.
    + cbn [emitChangeWorld]. apply Idle_emitChangeWorld; [apply I | reflexivity].
  - rewrite reset_eq. reflexivity.
  - rewrite reset_eq. cbn [snd].
    apply Idle_emitChangeWorld; [apply I | reflexivity].
Qed.

End Guards.

(** ** [bind] and [unbind] on the table *)

Section Table.

Context {KN : KeyNotation}.

Lemma has_delete k n f :
  JSSet.has k (JSSet.delete n f) = JSSet.has k f && negb (String.eqb n k).
Proof.
  unfold JSSet.has, JSSet.delete. induction f as [|x f IH]; [reflexivity|]. cbn.
  destruct (String.eqb_spec x n) as [->|Hx]; cbn; rewrite IH.
  - destruct (String.eqb_spec k n) as [->|Hk].
    + rewrite String.eqb_refl. cbn. now rewrite andb_false_r.
    + cbn. destruct (String.eqb_spec n k); [congruence | reflexivity].
  - destruct (String.eqb_spec k x) as [->|]; cbn; [|reflexivity].
    destruct (String.eqb_spec n x); [congruence | reflexivity].
Qed.

Lemma unbound_get sequences k : forall m,
  JSMap.get k (bindings (fold_left unbindStep sequences m)) =
  if unbinds sequences k then None else JSMap.get k (bindings m).
Proof.
  induction sequences as [|x sequences IH]; intros m; [reflexivity|].
  cbn [fold_left unbinds existsb]. rewrite IH. fold (unbinds sequences k).
  unfold unbindStep. destruct (normalizeSequence x) as [n|]; cbn; [|reflexivity].
  rewrite JSMapFacts.get_delete, (String.eqb_sym k n).
  destruct (String.eqb n k), (unbinds sequences k); reflexivity.
Qed.

Lemma unbound_has sequences k : forall m,
  JSSet.has k (filtered (fold_left unbindStep sequences m)) =
  JSSet.has k (filtered m) && negb (unbinds sequences k).
Proof.
  induction sequences as [|x sequences IH]; intros m;
    [cbn; now rewrite andb_true_r|].
  cbn [fold_left unbinds existsb]. rewrite IH. fold (unbinds sequences k).
  unfold unbindStep. destruct (normalizeSequence x) as [n|];
    cbn [filtered with_filtered]; [|reflexivity].
  rewrite has_delete.
  destruct (JSSet.has k (filtered m)), (String.eqb n k), (unbinds sequences k);
    reflexivity.
Qed.

Lemma unbound_ignores_failures sequences : forall m,
  fold_left unbindStep sequences m =
  fold_left unbindStep (filter normalizes sequences) m.
Proof.
  induction sequences as [|x sequences IH]; intros m; [reflexivity|].
  cbn [fold_left filter]. unfold normalizes at 1.
  destruct (normalizeSequence x) as [n|] eqn:E; cbn [fold_left]; rewrite IH.
  - reflexivity.
  - unfold unbindStep at 2. now rewrite E.
Qed.

Lemma logged_errors_emitChangeWorld w :
  logged_errors (log (host (emitChangeWorld w))) = logged_errors (log (host w)).
Proof.
  unfold emitChangeWorld. destruct (_ =? _)%nat; cbn [host with_listening log].
  - apply logged_errors_resetWorld.
  - reflexivity.
Qed.

(** C8.  [unbind] never fails and reports nothing: it completes normally
    with no value and hands nothing to [logger.error]; arguments that do
    not normalise change nothing (the call equals the call without
    them); a bound sequence is removed from the table exactly when some
    argument normalises to it, every other entry keeps its command; and
    such a sequence is no longer a candidate. *)
Theorem unbind_is_best_effort (sequences : list string) (w : World) (k : string) :
  let w' := snd (unbind sequences w) in
  fst (unbind sequences w) = Normal tt
  /\ logged_errors (log (host w')) = logged_errors (log (host w))
  /\ unbind sequences w = unbind (filter normalizes sequences) w
  /\ JSMap.get k (bindings (this w')) =
     (if unbinds sequences k then None else JSMap.get k (bindings (this w)))
  /\ JSSet.has k (filtered (this w')) =
     (if (JSMap.size (bindings (this w')) =? 0)%nat then false
      else JSSet.has k (filtered (this w)) && negb (unbinds sequences k)).
Proof.
  cbn zeta. rewrite !unbind_eq. cbn [fst snd].
  split; [reflexivity|].
  split; [now rewrite logged_errors_emitChangeWorld|].
  split; [unfold unboundWorld; now rewrite <- unbound_ignores_failures|].
  unfold emitChangeWorld, unboundWorld. cbn [this host].
  destruct (JSMap.size (bindings (fold_left unbindStep sequences (this w))) =? 0)%nat
    eqn:E; cbn [this host bindings resetWorld with_filtered with_prevBestMatchCommand
                with_sequence filtered]; rewrite E.
  - split; [apply unbound_get|].
    rewrite (JSMapFacts.size_0_keys _ E). reflexivity.
  - split; [apply unbound_get | apply unbound_has].
Qed.

Lemma find_app_last {A} (p : A -> bool) l x :
  find p (l ++ [x]) =
  match find p l with
  | Some y => Some y
  | None => if p x then Some x else None
  end.
Proof.
  induction l as [|y l IH]; cbn; [reflexivity|].
  destruct (p y); [reflexivity | exact IH].
Qed.

Lemma fold_set_get (l : list (string * Command)) k : forall b,
  JSMap.get k (fold_left (fun b nc => JSMap.set (fst nc) (snd nc) b) l b) =
  match find (fun nc => String.eqb (fst nc) k) (rev l) with
  | Some nc => Some (snd nc)
  | None => JSMap.get k b
  end.
Proof.
  induction l as [|x l IH]; intros b; [reflexivity|].
  cbn [fold_left rev]. rewrite IH, find_app_last, JSMapFacts.get_set.
  destruct (find _ (rev l)); [reflexivity|].
  destruct (String.eqb (fst x) k); reflexivity.
Qed.

Lemma bound_bindings entries : forall m,
  bindings (fold_left bindStep entries m) =
  fold_left (fun b nc => JSMap.set (fst nc) (snd nc) b) (successes entries)
    (bindings m).
Proof.
  induction entries as [|x entries IH]; intros m; [reflexivity|].
  cbn [fold_left successes flat_map]. rewrite IH. unfold bindStep.
  destruct (normalizeSequence (fst x)); reflexivity.
Qed.

Lemma report_get entries seq : forall errorMap,
  JSMap.get seq (fold_left bindReport entries errorMap) =
  match normalizeSequence seq with
  | Err errors =>
      if existsb (fun entry => String.eqb (fst entry) seq) entries
      then Some errors else JSMap.get seq errorMap
  | Ok _ => JSMap.get seq errorMap
  end.
Proof.
  induction entries as [|x entries IH]; intros errorMap.
  - cbn. destruct (normalizeSequence seq); reflexivity.
  - cbn [fold_left existsb]. rewrite IH. unfold bindReport.
    destruct (String.eqb_spec (fst x) seq) as [->|Hne].
    + destruct (normalizeSequence seq) as [n|errors]; [reflexivity|].
      cbn. rewrite JSMapFacts.get_set, String.eqb_refl.
      destruct (existsb _ entries); reflexivity.
    + destruct (normalizeSequence (fst x)) as [n|errors]; [reflexivity|].
      rewrite JSMapFacts.get_set.
      destruct (String.eqb_spec (fst x) seq); [contradiction|]. reflexivity.
Qed.

Lemma report_empty entries : forall errorMap,
  (JSMap.size (fold_left bindReport entries errorMap) =? 0)%nat =
  (JSMap.size errorMap =? 0)%nat
  && forallb (fun entry => normalizes (fst entry)) entries.
Proof.
  induction entries as [|x entries IH]; intros errorMap;
    [cbn; now rewrite andb_true_r|].
  cbn [fold_left forallb]. rewrite IH. unfold bindReport, normalizes.
  destruct (normalizeSequence (fst x)) as [n|errors]; [reflexivity|].
  cbn. rewrite andb_false_r.
  destruct errorMap as [|[k0 v0] em]; [reflexivity|]. cbn.
  destruct (String.eqb k0 (fst x)); reflexivity.
Qed.

Lemma successes_filter entries :
  successes (filter (fun entry => normalizes (fst entry)) entries) =
  successes entries.
Proof.
  induction entries as [|x entries IH]; [reflexivity|].
  cbn [filter]. unfold normalizes at 1.
  destruct (normalizeSequence (fst x)) as [n|] eqn:E.
  - unfold successes in *. cbn [flat_map]. rewrite E, IH. reflexivity.
  - unfold successes in *. cbn [flat_map]. rewrite E, IH. reflexivity.
Qed.

(** C4.  Batch [bind] treats each sequence on its own.  It completes
    normally with the report; the report holds, for each entry whose
    sequence does not normalise, that sequence with its errors, and
    nothing else, so it is empty exactly when every entry normalised;
    the table after the call is the table before with the entries that
    normalise inserted in order, each overwriting what was bound to its
    canonical sequence, whether or not other entries failed; an entry
    that does not normalise inserts nothing. *)
Theorem bind_is_per_sequence (entries : list (string * Command)) (w : World)
    (seq k : string) :
  let report := fold_left bindReport entries JSMap.empty in
  let w' := snd (bind entries w) in
  fst (bind entries w) = Normal report
  /\ JSMap.get seq report =
     match normalizeSequence seq with
     | Err errors =>
         if existsb (fun entry => String.eqb (fst entry) seq) entries
         then Some errors else None
     | Ok _ => None
     end
  /\ (JSMap.size report =? 0)%nat =
     forallb (fun entry => normalizes (fst entry)) entries
  /\ bindings (this w') =
     fold_left (fun b nc => JSMap.set (fst nc) (snd nc) b) (successes entries)
       (bindings (this w))
  /\ JSMap.get k (bindings (this w')) =
     match lastBound entries k with
     | Some command => Some command
     | None => JSMap.get k (bindings (this w))
     end
  /\ bindings (this w') =
     bindings (this (snd (bind (filter (fun entry => normalizes (fst entry)) entries) w))).
Proof.
  cbn zeta. rewrite !bind_eq. cbn [fst snd].
  assert (Hb : forall es,
             bindings (this (emitChangeWorld (boundWorld es w))) =
             bindings (fold_left bindStep es (this w))).
  { intros es. unfold emitChangeWorld. destruct (_ =? _)%nat; reflexivity. }
  rewrite !Hb, !bound_bindings.
  split; [reflexivity|].
  split; [now rewrite report_get|].
  split; [now rewrite report_empty|].
  split; [reflexivity|].
  split.
  - rewrite fold_set_get. unfold lastBound. destruct (find _ _); reflexivity.
  - now rewrite successes_filter.
Qed.

End Table.

(** ** Typing a bound sequence *)

Section Typing.

Context {KN : KeyNotation}.

Lemma isKeyToken_true e :
  isKeyToken e = true ->
  isTrusted e = true /\ falsy (stringify e) = false /\ isComposing e = false.
Proof.
  unfold isKeyToken. destruct (isTrusted e), (falsy (stringify e)), (isComposing e);
    cbn; intros H; try discriminate; auto.
Qed.

Lemma typed_app es1 es2 : typed (es1 ++ es2) = (typed es1 ++ typed es2)%string.
Proof.
  induction es1 as [|e es1 IH]; [reflexivity|].
  unfold typed in *. cbn [app fold_right]. rewrite IH.
  now rewrite append_assoc.
Qed.

Lemma falsy_append_r (s t : string) : falsy t = false -> falsy (s ++ t) = false.
Proof. destruct s; [auto | reflexivity]. Qed.

Lemma typed_nonempty es e :
  falsy (stringify e) = false -> falsy (typed (es ++ [e])) = false.
Proof.
  intros H. rewrite typed_app. apply falsy_append_r. cbn.
  now rewrite append_empty_r.
Qed.

Lemma append_neq (s t : string) : falsy t = false -> s <> (s ++ t)%string.
Proof.
  intros Ht E. symmetry in E. apply append_same_empty in E. subst. discriminate.
Qed.

Lemma NoDup_singleton (l : list string) n :
  NoDup l -> (forall x, In x l <-> x = n) -> l = [n].
Proof.
  intros Hn H. destruct l as [|x l]; [exfalso; apply (H n); reflexivity|].
  assert (x = n) as -> by (apply H; now left).
  destruct l as [|y l]; [reflexivity|].
  assert (y = n) as -> by (apply H; right; now left).
  inversion Hn as [|? ? Hnot _]. exfalso. apply Hnot. now left.
Qed.

Lemma two_distinct (l : list string) a b :
  In a l -> In b l -> a <> b -> (2 <= List.length l)%nat.
Proof.
  intros Ha Hb Hne. destruct l as [|x [|y l]]; cbn in *; try lia; try tauto.
  destruct Ha as [<-|[]], Hb as [<-|[]]. congruence.
Qed.

(** Typing the rest of a bound sequence that no longer sequence extends:
    every token but the last arms the timer, the last one calls the
    command. *)
Lemma feed_rest (n : string) (C : Command) (e : KeyboardEvent) es : forall w,
  forallb isKeyToken (es ++ [e]) = true ->
  (_sequence (this w) ++ typed (es ++ [e]))%string = n ->
  NoDup (filtered (this w)) ->
  candidates_consistent (this w) ->
  JSMap.get n (bindings (this w)) = Some C ->
  (forall k, In k (JSMap.keys (bindings (this w))) -> startsWith k n = true -> k = n) ->
  fst (feed (es ++ [e]) w) = Normal tt
  /\ _sequence (this (snd (feed (es ++ [e]) w))) = ""
  /\ invocations (log (host (snd (feed (es ++ [e]) w)))) =
     (C, e) :: invocations (log (host w)).
Proof.
  induction es as [|e0 es IH]; intros w Hk Hn Hnd Hc Hget Hext.
  - (* the last token *)
    cbn [app] in *. cbn in Hk. rewrite andb_true_r in Hk.
    apply isKeyToken_true in Hk as (H1 & H2 & H3).
    cbn in Hn. rewrite append_empty_r in Hn.
    assert (Hin : In n (JSMap.keys (bindings (this w))))
      by (eapply JSMapFacts.get_In_keys; eassumption).
    assert (Hf : filtered (this (accumulatedWorld e w)) = [n]).
    { apply NoDup_singleton; [now apply narrowed_NoDup|].
      intros x. unfold accumulatedWorld. cbn [this filtered with_filtered
        with_prevBestMatchCommand]. rewrite (narrowed_consistent (this w)), Hn by assumption.
      split; [intros [? ?]; now apply Hext | intros ->; split; [assumption|]].
      apply startsWith_refl. }
    assert (Hp : prevBestMatchCommand (this (accumulatedWorld e w)) =
                 Some {| bm_key := n; bm_command := C; bm_event := e |}).
    { change (prevBestMatchCommand (this (accumulatedWorld e w)))
        with (if (0 <? JSSet.size (filtered (this (accumulatedWorld e w))))%nat
              then exactMatch (bindings (this w))
                     (_sequence (this w) ++ stringify e) e (filtered (this w)) None
              else prevBestMatchCommand (this w)).
      rewrite Hf, Hn. cbn [JSSet.size List.length Nat.ltb Nat.leb].
      rewrite exactMatch_general, Hget.
      assert (JSSet.has n (filtered (this w)) = true) as ->; [|reflexivity].
      apply JSSetFacts.has_In, Hc. split; [assumption|].
      rewrite <- Hn. apply startsWith_append. }
    assert (Hfeed : feed [e] w =
                    (Normal tt,
                     resetWorld
                       (invokedWorld
                          {| bm_key := n; bm_command := C; bm_event := e |}
                          (accumulatedWorld e w)))).
    { unfold feed. cbn [forOf]. unfold bind_eff at 1. unfold max_depth.
      rewrite handleKeydown_pass by assumption. cbn zeta.
      rewrite Hp, Hf. reflexivity. }
    rewrite Hfeed. cbn [fst snd]. repeat split.
    rewrite invocations_resetWorld, invocations_invokedWorld,
      invocations_accumulatedWorld. reflexivity.
  - (* a token before the last *)
    cbn [app forallb] in Hk. apply andb_true_iff in Hk as [Hk0 Hk].
    apply isKeyToken_true in Hk0 as (H1 & H2 & H3).
    assert (He : falsy (stringify e) = false).
    { clear -Hk. induction es as [|x es IHes]; cbn in Hk.
      - rewrite andb_true_r in Hk. now apply isKeyToken_true in Hk.
      - apply andb_true_iff in Hk as [_ Hk]. auto. }
    pose proof (typed_nonempty es e He) as Hrest.
    change (typed ((e0 :: es) ++ [e]))
      with (stringify e0 ++ typed (es ++ [e]))%string in Hn.
    rewrite <- append_assoc in Hn.
    set (s' := (_sequence (this w) ++ stringify e0)%string) in *.
    assert (Hne : s' <> n) by (rewrite <- Hn; now apply append_neq).
    assert (Hin : In n (JSMap.keys (bindings (this w))))
      by (eapply JSMapFacts.get_In_keys; eassumption).
    assert (Hc1 : candidates_consistent (this (accumulatedWorld e0 w)))
      by (intros k; now apply (narrowed_consistent (this w))).
    assert (Hnd1 : NoDup (filtered (this (accumulatedWorld e0 w))))
      by now apply narrowed_NoDup.
    assert (Hn1 : In n (filtered (this (accumulatedWorld e0 w)))).
    { apply Hc1. split; [exact Hin|]. cbn. fold s'. rewrite <- Hn.
      apply startsWith_append. }
    assert (Hpass : handleKeydown max_depth e0 w =
                    (Normal tt, armedWorld e0 (accumulatedWorld e0 w))).
    { unfold max_depth. rewrite handleKeydown_pass by assumption. cbn zeta.
      assert (Hp : prevBestMatchCommand (this (accumulatedWorld e0 w)) =
                   if (0 <? JSSet.size (filtered (this (accumulatedWorld e0 w))))%nat
                   then exactMatch (bindings (this w)) s' e0 (filtered (this w)) None
                   else prevBestMatchCommand (this w)) by reflexivity.
      rewrite exactMatch_general in Hp.
      destruct (JSSet.has s' (filtered (this w))) eqn:Hhas.
      - (* the buffer is itself bound: two candidates at least *)
        assert (Hs1 : In s' (filtered (this (accumulatedWorld e0 w)))).
        { apply JSSetFacts.has_In, Hc in Hhas as [Hks _].
          apply Hc1. split; [exact Hks | apply startsWith_refl]. }
        pose proof (two_distinct _ _ _ Hs1 Hn1 Hne) as Hlen.
        unfold JSSet.size in *.
        destruct (List.length (filtered (this (accumulatedWorld e0 w))))
          as [|[|len]]; try lia.
        cbn [Nat.ltb Nat.leb Nat.eqb].
        destruct (prevBestMatchCommand (this (accumulatedWorld e0 w))); reflexivity.
      - unfold JSSet.size in *.
        destruct (filtered (this (accumulatedWorld e0 w))) as [|k1 f1];
          [destruct Hn1|].
        cbn [List.length Nat.ltb Nat.leb] in Hp. rewrite Hp.
        cbn [List.length Nat.eqb]. reflexivity. }
    assert (Hfeed : feed ((e0 :: es) ++ [e]) w =
                    feed (es ++ [e]) (armedWorld e0 (accumulatedWorld e0 w))).
    { unfold feed. cbn [app forOf]. unfold bind_eff at 1. now rewrite Hpass. }
    rewrite Hfeed.
    destruct (IH (armedWorld e0 (accumulatedWorld e0 w))) as (R1 & R2 & R3);
      try assumption.
    rewrite R3, invocations_armedWorld, invocations_accumulatedWorld. auto.
Qed.

(** C2, as the code has it.  Let [bind(S, C)] be called on a reachable
    world whose buffer is empty, let [S] normalise (so that [bind]
    succeeds with an empty report) and let no other bound sequence start
    with the canonical form of [S].  Then feeding exactly the key tokens
    that spell the canonical form calls [C] exactly once, with the last
    event, calls no other command, and leaves the buffer empty. *)
Theorem bound_sequence_fires (options : option MousetrapOptions)
    (actions : list Action) (S : string) (C : Command)
    (es : list KeyboardEvent) (e : KeyboardEvent) :
  let w := run actions (new_World options) in
  let w1 := snd (bind1 S C w) in
  let w2 := snd (feed (es ++ [e]) w1) in
  _sequence (this w) = "" ->
  normalizeSequence S = Ok (typed (es ++ [e])) ->
  (forall k, In k (JSMap.keys (bindings (this w1))) ->
             startsWith k (typed (es ++ [e])) = true -> k = typed (es ++ [e])) ->
  forallb isKeyToken (es ++ [e]) = true ->
  fst (bind1 S C w) = Normal JSMap.empty
  /\ fst (feed (es ++ [e]) w1) = Normal tt
  /\ invocations (log (host w2)) = (C, e) :: invocations (log (host w1))
  /\ _sequence (this w2) = "".
Proof.
  intros w w1 w2 Hs Hn Hext Hk. assert (I : Inv w) by apply Inv_reachable.
  assert (I1 : Inv w1) by (apply Inv_bind, I).
  assert (Hb : bind1 S C w =
               (Normal JSMap.empty,
                emitChangeWorld (boundWorld [(S, C)] w))).
  { unfold bind1. rewrite bind_eq. cbn [fold_left]. unfold bindReport.
    cbn [fst]. now rewrite Hn. }
  assert (Hm : this w1 = bindStep (this w) (S, C)).
  { unfold w1. rewrite Hb. cbn [snd]. unfold emitChangeWorld.
    destruct (JSMap.size (bindings (this (boundWorld [(S, C)] w))) =? 0)%nat eqn:E;
      [|reflexivity].
    exfalso. revert E. cbn. unfold bindStep. cbn [fst]. rewrite Hn. cbn.
    destruct (bindings (this w)) as [|[k0 v0] b]; cbn; [discriminate|].
    destruct (String.eqb k0 _); discriminate. }
  assert (Hs1 : _sequence (this w1) = "")
    by (rewrite Hm; unfold bindStep; cbn [fst]; rewrite Hn; exact Hs).
  assert (Hget : JSMap.get (typed (es ++ [e])) (bindings (this w1)) = Some C).
  { rewrite Hm. unfold bindStep. cbn [fst snd]. rewrite Hn. cbn.
    now rewrite JSMapFacts.get_set, String.eqb_refl. }
  split; [now rewrite Hb|].
  destruct (feed_rest (typed (es ++ [e])) C e es w1) as (R1 & R2 & R3);
    try assumption; try apply I1.
  - now rewrite Hs1.
  - auto.
Qed.

(** One replay step: a token that leaves no candidate while the holder
    is full. *)
Lemma replay_step d e bm w :
  Inv w ->
  isKeyToken e = true ->
  prevBestMatchCommand (this w) = Some bm ->
  JSSet.size (filtered (this (accumulatedWorld e w))) = 0%nat ->
  let w1 := resetWorld (invokedWorld bm (accumulatedWorld e w)) in
  handleKeydown (S d) e w = handleKeydown d e w1
  /\ Idle w1
  /\ bindings (this w1) = bindings (this w)
  /\ invocations (log (host w1)) =
     (bm_command bm, bm_event bm) :: invocations (log (host w)).
Proof.
  intros I Hk Hp Hnone w1. apply isKeyToken_true in Hk as (H1 & H2 & H3).
  assert (Hf : filtered (this (accumulatedWorld e w)) = []).
  { unfold JSSet.size in Hnone.
    destruct (filtered (this (accumulatedWorld e w)));
      [reflexivity | discriminate]. }
  assert (Hp1 : prevBestMatchCommand (this (accumulatedWorld e w)) = Some bm).
  { change (prevBestMatchCommand (this (accumulatedWorld e w)))
      with (if (0 <? JSSet.size (filtered (this (accumulatedWorld e w))))%nat
            then exactMatch (bindings (this w))
                   (_sequence (this w) ++ stringify e) e (filtered (this w)) None
            else prevBestMatchCommand (this w)).
    now rewrite Hf. }
  split; [|split; [|split]].
  - rewrite handleKeydown_pass by assumption. cbn zeta. now rewrite Hp1, Hf.
  - apply Idle_resetWorld. cbn [invokedWorld this host timers with_log].
    rewrite timers_accumulatedWorld by assumption. intros ? [].
  - reflexivity.
  - unfold w1. now rewrite invocations_resetWorld, invocations_invokedWorld,
      invocations_accumulatedWorld.
Qed.

End Typing.

(** ** The prefix-shadow replay *)

Section Shadow.

Context {KN : KeyNotation}.

Lemma d_then_a (options : option MousetrapOptions) (cd cdd : Command)
    (e1 e2 : KeyboardEvent) :
  normalizeSequence "d" = Ok "d" ->
  normalizeSequence "dd" = Ok "dd" ->
  isKeyToken e1 = true -> stringify e1 = "d" ->
  isKeyToken e2 = true -> stringify e2 = "a" ->
  let w0 := exec (Bind [("d", cd); ("dd", cdd)]) (new_World options) in
  let w2 := run [Keydown e1; Keydown e2] w0 in
  bindings (this w0) = [("d", cd); ("dd", cdd)]
  /\ invocations (log (host w2)) = [(cd, e1)]
  /\ buffers_seen (log (host w2)) = ["a"; "da"; "d"]
  /\ Idle w2.
Proof.
  intros Hd Hdd Hk1 Hs1 Hk2 Hs2 w0 w2.
  apply isKeyToken_true in Hk1 as (T1 & F1 & C1).
  apply isKeyToken_true in Hk2 as (T2 & F2 & C2).
  assert (E0 : w0 = emitChangeWorld (boundWorld [("d", cd); ("dd", cdd)] (new_World options))).
  { unfold w0, exec. cbn [step]. unfold bind_eff at 1. now rewrite bind_eq. }
  unfold boundWorld in E0. cbn [fold_left] in E0.
  unfold bindStep, bindSequences, bindLog in E0. cbn [fst snd] in E0.
  rewrite Hd, Hdd in E0. cbn in E0. clearbody w0. subst w0.
  unfold w2, run, exec. cbn [fold_left step].
  unfold dispatchEvent, bind_eff, gets_host, when, max_depth.
  cbn [host listening with_listening with_log new_Host ret].
  rewrite (handleKeydown_pass 1 e1) by assumption. cbn zeta.
  unfold accumulatedWorld. rewrite Hs1.
  cbn -[handleKeydown].
  rewrite (handleKeydown_pass 1 e2) by assumption. cbn zeta.
  unfold accumulatedWorld. rewrite Hs2.
  cbn -[handleKeydown resetWorld invokedWorld].
  rewrite (handleKeydown_pass 0 e2) by assumption. cbn zeta.
  unfold accumulatedWorld. rewrite Hs2.
  cbn -[handleKeydown invocations buffers_seen].
  split; [reflexivity|].
  destruct options as [[[] fi]|]; destruct (cd e1);
    (split; [reflexivity|]); (split; [reflexivity|]);
    unfold Idle; cbn; repeat split; auto.
Qed.

(** C1.  The prefix-shadow replay.  In a reachable world whose holder is
    full, a key token after which the candidate set has size 0 (in
    [accumulatedWorld], the world after the filtering loop) makes
    [handleKeydown] call the held command, run [backToInitial] (which leaves the matcher
    Idle, the table untouched) and then process the same event again
    from that world.  With exactly "d" and "dd" bound, the tokens "d"
    then "a" call the command of "d" exactly once and no other command,
    and "a" is then processed as the first token of a new sequence: the
    buffers logged are "d", "da" and "a". *)
Theorem prefix_shadow_replay (options : option MousetrapOptions)
    (actions : list Action) (d : nat) (e : KeyboardEvent) (bm : BestMatch)
    (cd cdd : Command) (e1 e2 : KeyboardEvent) :
  (let w := run actions (new_World options) in
   let w1 := resetWorld (invokedWorld bm (accumulatedWorld e w)) in
   isKeyToken e = true ->
   prevBestMatchCommand (this w) = Some bm ->
   JSSet.size (filtered (this (accumulatedWorld e w))) = 0%nat ->
   handleKeydown (S d) e w = handleKeydown d e w1
   /\ Idle w1
   /\ bindings (this w1) = bindings (this w)
   /\ invocations (log (host w1)) =
      (bm_command bm, bm_event bm) :: invocations (log (host w)))
  /\
  (let w0 := exec (Bind [("d", cd); ("dd", cdd)]) (new_World options) in
   let w2 := run [Keydown e1; Keydown e2] w0 in
   normalizeSequence "d" = Ok "d" ->
   normalizeSequence "dd" = Ok "dd" ->
   isKeyToken e1 = true -> stringify e1 = "d" ->
   isKeyToken e2 = true -> stringify e2 = "a" ->
   bindings (this w0) = [("d", cd); ("dd", cdd)]
   /\ invocations (log (host w2)) = [(cd, e1)]
   /\ buffers_seen (log (host w2)) = ["a"; "da"; "d"]
   /\ Idle w2).
Proof.
  split.
  - intros w w1 Hk Hp Hnone. apply replay_step; auto. apply Inv_reachable.
  - intros w0 w2 Hd Hdd Hk1 Hs1 Hk2 Hs2. now apply d_then_a.
Qed.

End Shadow.

(* ================================================================= *)
(** * The model on concrete inputs *)

(** ** The scenarios of the repository's test file, with [plainKeys] *)

Example test_registration :
  JSMap.keys (bindings (this test_world)) = ["gg"; "G"; "d"; "g"; "rr"]
  /\ JSMap.keys
       (bindings (this (run_plain [Unbind ["gg"; "G"; "g"; "rr"]] test_world)))
     = ["d"]
  /\ bindings (this (run_plain [Reset] test_world)) = [].
Proof. vm_compute. auto. Qed.

Example test_single_key_sequence :
  called (run_plain [Keydown (press "k")] test_world) = []
  /\ called (run_plain [Keydown (press "k"); Keydown (press "G")] test_world) = ["G"]
  /\ called (run_plain [Keydown (press "k"); Keydown (press "G");
                        Keydown (press "d")] test_world) = ["G"; "d"].
Proof. vm_compute. auto. Qed.

Example test_multiple_key_sequences :
  called (run_plain [Keydown (press "r"); Keydown (press "r")] test_world) = ["r"]
  /\ called (run_plain [Keydown (press "r"); Keydown (press "k")] test_world) = [].
Proof. vm_compute. auto. Qed.

Example test_pause :
  let w1 := run_plain [Keydown (press "r")] test_world in
  let w2 := run_plain [TimerFires 0] w1 in
  let w3 := run_plain [Keydown (press "g")] w2 in
  let w4 := run_plain [TimerFires 1] w3 in
  called w1 = [] /\ _sequence (this w1) = "r"
  /\ map timer_delay (timers (host w1)) = [50%Z]
  /\ _sequence (this w2) = ""
  /\ called w3 = [] /\ called w4 = ["g"].
Proof. vm_compute. repeat split. Qed.

Example test_cancel_by_another_key :
  let w := run_plain [Bind [("g", cmd_boom); ("a", cmd_other)]] test_world in
  called (run_plain [Keydown (press "g")] w) = []
  /\ called (run_plain [Keydown (press "g"); Keydown (press "a")] w) = ["g"; "a"].
Proof. vm_compute. auto. Qed.

(** ** The earlier revision of [bind] was all-or-nothing *)

Remark legacy_bind_inserts_nothing_on_error
    (KN : KeyNotation) (entries : list (string * Command))
    (errors : list (string * string)) (w : World) :
  Legacy.checkKeyBindings entries = Err errors ->
  fst (Legacy.bind entries w) = Normal errors
  /\ this (snd (Legacy.bind entries w)) = this w.
Proof. intros H. unfold Legacy.bind. rewrite H. split; reflexivity. Qed.

Example legacy_and_latest_bind_differ :
  JSMap.keys
    (bindings (this (snd (Legacy.bind (KN := plainKeys)
                            [("gg", cmd_ok); ("<", cmd_ok)] (new_World None)))))
  = []
  /\ JSMap.keys
       (bindings (this (snd (bind (KN := plainKeys)
                               [("gg", cmd_ok); ("<", cmd_ok)] (new_World None)))))
     = ["gg"].
Proof. vm_compute. auto. Qed.

(** ** Where the specification and the code part *)

(** Against C2: "d" is bound while "dd" is; [bind] succeeds, and typing
    "d" calls nothing and leaves the buffer at "d". *)
Lemma shadowed_sequence_waits :
  let w := run_plain [Bind [("dd", cmd_other)]] (new_World None) in
  let w1 := snd (bind1 (KN := plainKeys) "d" cmd_ok w) in
  let w2 := snd (feed (KN := plainKeys) [press "d"] w1) in
  _sequence (this w) = ""
  /\ fst (bind1 (KN := plainKeys) "d" cmd_ok w) = Normal JSMap.empty
  /\ typed (KN := plainKeys) [press "d"] = "d"
  /\ invocations (log (host w2)) = invocations (log (host w1))
  /\ _sequence (this w2) <> "".
Proof. vm_compute. repeat split. discriminate. Qed.

(** Against C5: [bind] on a non-empty table keeps the buffer. *)
Lemma bind_keeps_buffer :
  _sequence (this (exec (KN := plainKeys) (Bind [("x", cmd_ok)]) pending_d)) = "d"
  /\ ~ Idle (exec (KN := plainKeys) (Bind [("x", cmd_ok)]) pending_d).
Proof.
  split; [reflexivity|]. intros [H _]. vm_compute in H. discriminate.
Qed.

(** Against C7: an untrusted event leaves a pending state pending. *)
Lemma untrusted_event_keeps_state :
  isTrusted (synthetic "x") = false
  /\ exec (KN := plainKeys) (Keydown (synthetic "x")) pending_d = pending_d
  /\ ~ Idle (exec (KN := plainKeys) (Keydown (synthetic "x")) pending_d).
Proof.
  split; [reflexivity|]. split; [reflexivity|].
  intros [H _]. vm_compute in H. discriminate.
Qed.

(** ** The theorems at concrete inputs *)

Lemma prefix_shadow_replay_witness :
  isKeyToken (KN := plainKeys) (press "a") = true
  /\ prevBestMatchCommand (this pending_d) = Some held_d
  /\ Idle (resetWorld (invokedWorld held_d
                         (accumulatedWorld (KN := plainKeys) (press "a") pending_d)))
  /\ invocations
       (log (host (run_plain [Keydown (press "d"); Keydown (press "a")]
                     (exec (KN := plainKeys) (Bind d_and_dd) (new_World None)))))
     = [(cmd_ok, press "d")].
Proof.
  split; [reflexivity|]. split; [reflexivity|]. split.
  - refine (proj1 (proj2 (proj1
      (prefix_shadow_replay (KN := plainKeys) None
         [Bind d_and_dd; Keydown (press "d")] 1 (press "a") held_d
         cmd_ok cmd_other (press "d") (press "a")) _ _ _))).
    + reflexivity.
    + reflexivity.
    + reflexivity.
  - refine (proj1 (proj2 (proj2
      (prefix_shadow_replay (KN := plainKeys) None [] 0 (press "a") held_d
         cmd_ok cmd_other (press "d") (press "a")) _ _ _ _ _ _)));
      reflexivity.
Defined.

Lemma bound_sequence_fires_witness :
  let w1 := snd (bind1 (KN := plainKeys) "gg" cmd_ok
                   (run_plain [Bind [("d", cmd_other)]] (new_World None))) in
  invocations (log (host (snd (feed (KN := plainKeys) [press "g"; press "g"] w1))))
  = (cmd_ok, press "g") :: invocations (log (host w1)).
Proof.
  refine (proj1 (proj2 (proj2
    (bound_sequence_fires (KN := plainKeys) None [Bind [("d", cmd_other)]]
       "gg" cmd_ok [press "g"] (press "g") _ _ _ _)))).
  - reflexivity.
  - reflexivity.
  - intros k [<-|[<-|[]]] H; [discriminate H | reflexivity].
  - reflexivity.
Defined.

Lemma timer_expiry_witness :
  In timer_d
     (timers (host (run (KN := plainKeys) [Bind d_and_dd; Keydown (press "d")]
                      (new_World None))))
  /\ Idle (exec (KN := plainKeys) (TimerFires (timer_id timer_d))
             (run (KN := plainKeys) [Bind d_and_dd; Keydown (press "d")]
                (new_World None))).
Proof.
  assert (H : In timer_d
                 (timers (host (run (KN := plainKeys)
                                  [Bind d_and_dd; Keydown (press "d")]
                                  (new_World None)))))
    by (vm_compute; left; reflexivity).
  split; [exact H|].
  exact (proj1 (proj2
    (timer_expiry (KN := plainKeys) None [Bind d_and_dd; Keydown (press "d")]
       timer_d H))).
Defined.

Lemma untrusted_ignored_composing_resets_witness :
  isTrusted (composing "x") = true
  /\ isComposing (composing "x") = true
  /\ falsy (stringify (KeyNotation := plainKeys) (composing "x")) = false
  /\ Idle (exec (KN := plainKeys) (Keydown (composing "x")) pending_d)
  /\ exec (KN := plainKeys) (Keydown (synthetic "x")) pending_d = pending_d.
Proof.
  split; [reflexivity|]. split; [reflexivity|]. split; [reflexivity|]. split.
  - exact (proj1 (proj2 (proj2
      (untrusted_ignored_composing_resets (KN := plainKeys) None
         [Bind d_and_dd; Keydown (press "d")] (composing "x"))))
      eq_refl eq_refl eq_refl).
  - exact (proj1
      (untrusted_ignored_composing_resets (KN := plainKeys) None
         [Bind d_and_dd; Keydown (press "d")] (synthetic "x")) eq_refl).
Defined.

Lemma one_pending_timer_witness :
  listening (host bound_d_dd) = true
  /\ In timer_d (timers (host (exec (KN := plainKeys) (Keydown (press "d")) bound_d_dd)))
  /\ (nextTimerId (host bound_d_dd) <= timer_id timer_d)%nat.
Proof.
  assert (H : In timer_d
                 (timers (host (exec (KN := plainKeys) (Keydown (press "d"))
                                  bound_d_dd)))) by (left; reflexivity).
  split; [reflexivity|]. split; [exact H|].
  exact (proj2 (proj2 (proj2 (proj2 (proj2
    (one_pending_timer (KN := plainKeys) None [Bind d_and_dd] (press "d") timer_d)))))
    eq_refl eq_refl eq_refl H).
Defined.

(* ================================================================= *)
(** * Further properties of the code *)

(** ** The sequence normaliser *)

Section Normalizer.

Context {KN : KeyNotation}.

Lemma normalize_fold keys : forall acc errors,
  fold_left
    (fun '(acc, errors) k =>
       match normalize k with
       | Err e => (acc, errors ++ [OfKeyError e])
       | Ok v => ((acc ++ v)%string, errors)
       end)
    keys (acc, errors)
  = ((acc ++ keyTokens keys)%string, errors ++ keyErrors keys).
Proof.
  induction keys as [|k keys IH]; intros acc errors.
  - cbn. now rewrite append_empty_r, app_nil_r.
  - cbn [fold_left]. unfold keyTokens, keyErrors in *. cbn [fold_right flat_map].
    destruct (normalize k) as [v|e]; rewrite IH.
    + now rewrite append_assoc.
    + now rewrite <- app_assoc.
Qed.

(** X1.  [normalizeSequence]: a sequence that does not parse gives the
    single error "cannot parse the sequence"; a sequence that parses gives
    the concatenation of its normalised keys when every key normalises,
    and otherwise the errors of all the keys that fail, in order, not
    only the first; the error list of a failure is never empty. *)
Theorem normalizeSequence_accumulates (sequence : string) :
  normalizeSequence sequence =
  match parseSequence sequence with
  | None => Err [InvalidSequenceError]
  | Some keys =>
      match keyErrors keys with
      | [] => Ok (keyTokens keys)
      | errors => Err errors
      end
  end
  /\ match normalizeSequence sequence with
     | Err [] => False
     | _ => True
     end.
Proof.
  assert (H : normalizeSequence sequence =
              match parseSequence sequence with
              | None => Err [InvalidSequenceError]
              | Some keys =>
                  match keyErrors keys with
                  | [] => Ok (keyTokens keys)
                  | errors => Err errors
                  end
              end).
  { unfold normalizeSequence. destruct (parseSequence sequence) as [keys|];
      [|reflexivity].
    rewrite normalize_fold. cbn [app]. destruct (keyErrors keys); reflexivity. }
  split; [exact H|]. rewrite H.
  destruct (parseSequence sequence) as [keys|]; [|exact I].
  destruct (keyErrors keys); exact I.
Qed.

End Normalizer.

(** ** What key events and timers leave alone *)

Section Untouched.

Context {KN : KeyNotation}.



End Untouched.

(** ** Invariants of the reachable worlds *)

Section Reachable.

Context {KN : KeyNotation}.

(** X3.  The listener follows the table: in every reachable world
    [handleKeydown] is registered on the target exactly when at least one
    sequence is bound, and with nothing bound the matcher is Idle. *)
Theorem listening_iff_bound (options : option MousetrapOptions)
    (actions : list Action) :
  let w := run actions (new_World options) in
  listening (host w) = negb (JSMap.size (bindings (this w)) =? 0)%nat
  /\ if listening (host w) then True else Idle w.
Proof.
  intros w. pose proof (Inv_reachable options actions) as I. fold w in I.
  split; [apply I|].
  destruct (listening (host w)) eqn:E; [exact Logic.I|].
  now apply Idle_unregistered.
Qed.

(** X4.  The candidate set is the prefix filter of the table: in every
    reachable world the bound sequences are pairwise distinct, the
    candidate set has no duplicate, and a sequence is a candidate exactly
    when it is bound and starts with the buffer. *)
Theorem candidates_are_prefix_matches (options : option MousetrapOptions)
    (actions : list Action) (k : string) :
  let w := run actions (new_World options) in
  NoDup (JSMap.keys (bindings (this w)))
  /\ NoDup (filtered (this w))
  /\ JSSet.has k (filtered (this w)) =
     JSSet.has k (JSMap.keys (bindings (this w)))
     && startsWith k (_sequence (this w)).
Proof.
  intros w. pose proof (Inv_reachable options actions) as I. fold w in I.
  split; [apply I|]. split; [apply I|].
  pose proof (inv_filtered w I k) as H.
  destruct (JSSet.has k (filtered (this w))) eqn:E1.
  - apply JSSetFacts.has_In, H in E1 as [E2 E3].
    apply JSSetFacts.has_In in E2. now rewrite E2, E3.
  - destruct (JSSet.has k (JSMap.keys (bindings (this w)))) eqn:E2; [|reflexivity].
    destruct (startsWith k (_sequence (this w))) eqn:E3; [|reflexivity].
    apply JSSetFacts.has_In in E2.
    assert (In k (filtered (this w))) as Hin by (apply H; auto).
    apply JSSetFacts.has_In in Hin. congruence.
Qed.

(** *** A timer is armed exactly while a sequence is pending *)

Lemma pending_after_reset w :
  _sequence (this w) = "" -> prevBestMatchCommand (this w) = None ->
  timers (host w) = [] -> pending_consistent w.
Proof. intros Hs Hp Ht. unfold pending_consistent. rewrite Hs, Hp, Ht. tauto. Qed.

Lemma pending_resetWorld w :
  (forall t, In t (timers (host w)) -> timer (this w) = Some (timer_id t)) ->
  pending_consistent (resetWorld w).
Proof.
  intros H. apply pending_after_reset; [reflexivity | reflexivity |].
  now apply timers_resetWorld.
Qed.

Lemma append_not_empty (s v : string) : falsy v = false -> (s ++ v)%string <> "".
Proof. destruct s, v; cbn; intros; discriminate. Qed.

Lemma pending_armedWorld e w :
  falsy (stringify e) = false ->
  filtered (this (accumulatedWorld e w)) <> [] ->
  pending_consistent (armedWorld e (accumulatedWorld e w)).
Proof.
  intros Hv Hne. unfold pending_consistent.
  assert (Hs : _sequence (this (armedWorld e (accumulatedWorld e w))) <> "")
    by (apply append_not_empty, Hv).
  assert (Ht : timers (host (armedWorld e (accumulatedWorld e w))) <> [])
    by (cbn; destruct (cleared _ _); discriminate).
  split; [tauto|].
  change (prevBestMatchCommand (this (armedWorld e (accumulatedWorld e w))))
    with (if (0 <? JSSet.size (filtered (this (accumulatedWorld e w))))%nat
          then exactMatch (bindings (this w))
                 (_sequence (this w) ++ stringify e) e (filtered (this w)) None
          else prevBestMatchCommand (this w)).
  unfold JSSet.size.
  destruct (filtered (this (accumulatedWorld e w))); [congruence|].
  cbn [List.length Nat.ltb Nat.leb]. rewrite exactMatch_general.
  destruct (JSSet.has _ _); [|exact I].
  destruct (JSMap.get _ _); [|exact I]. split; [reflexivity | exact Ht].
Qed.

Lemma pending_handleKeydown d e : forall w,
  Inv w -> pending_consistent w ->
  pending_consistent (snd (handleKeydown d e w)).
Proof.
  induction d as [|d IH]; intros w I P; [exact P|].
  destruct (isTrusted e) eqn:H1;
    [|rewrite handleKeydown_untrusted by assumption; exact P].
  destruct (falsy (stringify e)) eqn:H2;
    [rewrite handleKeydown_unwritable by assumption; exact P|].
  destruct (isComposing e) eqn:H3.
  { rewrite handleKeydown_composing by assumption. cbn [snd].
    apply pending_resetWorld. cbn. intros t Ht. apply (inv_timer w I).
    destruct (timer (this w)); [apply filter_In in Ht; tauto | exact Ht]. }
  rewrite handleKeydown_pass by assumption. cbn zeta.
  pose proof (timers_accumulatedWorld e w I) as Hts.
  pose proof (pending_armedWorld e w H2) as Harm.
  assert (I1 : forall bm, Inv (resetWorld (invokedWorld bm (accumulatedWorld e w)))).
  { intros bm. apply Inv_resetWorld;
      cbn [invokedWorld this host timers with_log listening];
      rewrite ?Hts; try (intros ? []); apply I. }
  assert (P1 : forall bm,
             pending_consistent (resetWorld (invokedWorld bm (accumulatedWorld e w)))).
  { intros bm. apply pending_resetWorld.
    cbn [invokedWorld this host timers with_log]. rewrite Hts. intros ? []. }
  assert (P2 : pending_consistent (resetWorld (accumulatedWorld e w))).
  { apply pending_resetWorld. rewrite Hts. intros ? []. }
  set (w1 := accumulatedWorld e w) in *. clearbody w1. unfold JSSet.size.
  destruct (prevBestMatchCommand (this w1)) as [bm|];
    destruct (filtered (this w1)) as [|k1 [|k2 f']];
    cbn [List.length Nat.ltb Nat.leb Nat.eqb snd];
    auto; apply Harm; discriminate.
Qed.

Lemma pending_emitChangeWorld w w0 :
  Inv w -> pending_consistent w ->
  _sequence (this w0) = _sequence (this w) ->
  prevBestMatchCommand (this w0) = prevBestMatchCommand (this w) ->
  timer (this w0) = timer (this w) ->
  timers (host w0) = timers (host w) ->
  pending_consistent (emitChangeWorld w0).
Proof.
  intros I P Hs Hp Ht Hts. unfold emitChangeWorld.
  destruct (_ =? _)%nat.
  - apply pending_after_reset; [reflexivity | reflexivity |].
    cbn [host with_listening timers]. apply timers_resetWorld.
    intros t Hin. rewrite Ht. apply I. now rewrite <- Hts.
  - unfold pending_consistent in *. cbn [this host with_listening timers].
    now rewrite Hs, Hp, Hts.
Qed.

Lemma pending_exec a w :
  Inv w -> pending_consistent w -> pending_consistent (exec a w).
Proof.
  intros I P. unfold exec. destruct a as [e|entries|sequences| |id]; cbn [step].
  - unfold dispatchEvent, bind_eff, gets_host, when.
    destruct (listening (host w)); [now apply pending_handleKeydown | exact P].
  - unfold bind_eff at 1. rewrite bind_eq. cbn [snd ret].
    destruct (bound_fields entries (this w)) as (? & ? & ? & ? & ?).
    apply (pending_emitChangeWorld w); auto.
  - rewrite unbind_eq. cbn [snd].
    destruct (unbound_fields sequences (this w)) as (? & ? & ? & ? & ?).
    apply (pending_emitChangeWorld w); auto.
  - rewrite reset_eq. cbn [snd]. apply (pending_emitChangeWorld w); auto.
  - rewrite fireTimer_eq. destruct (find _ _) as [t|] eqn:Hf; [|exact P].
    pose proof (timers_expiredWorld w id t I Hf) as Hts.
    destruct (timer_handler t); cbn [snd]; apply pending_resetWorld;
      cbn [invokedWorld this host timers with_log]; rewrite Hts; intros ? [].
Qed.

Lemma pending_run actions : forall w,
  Inv w -> pending_consistent w -> pending_consistent (run actions w).
Proof.
  induction actions as [|a actions IH]; intros w I P; [exact P|].
  change (run (a :: actions) w) with (run actions (exec a w)).
  apply IH; [now apply Inv_exec | now apply pending_exec].
Qed.

(** X5.  A pending sequence always has its timer.  In every reachable
    world a timer is armed exactly when the buffer is not empty, so a
    partly typed sequence never stays without a flush; and a full
    Best-Match Holder holds the match whose sequence is the buffer, with
    the armed timer set to run exactly that match. *)
Theorem pending_sequence_has_timer (options : option MousetrapOptions)
    (actions : list Action) :
  let w := run actions (new_World options) in
  (match timers (host w) with [] => true | _ => false end
   = String.eqb (_sequence (this w)) "")
  /\ match prevBestMatchCommand (this w) with
     | Some bm =>
         bm_key bm = _sequence (this w)
         /\ map timer_handler (timers (host w)) = [HBestMatch bm]
     | None => True
     end.
Proof.
  intros w. pose proof (Inv_reachable options actions) as I. fold w in I.
  assert (P : pending_consistent w).
  { apply pending_run; [apply Inv_new|].
    apply pending_after_reset; reflexivity. }
  destruct P as [P1 P2]. split.
  - destruct (timers (host w)) as [|t ts].
    + symmetry. apply String.eqb_eq. now apply P1.
    + symmetry. apply String.eqb_neq. intros E. apply P1 in E. discriminate.
  - destruct (prevBestMatchCommand (this w)) as [bm|] eqn:Ep; [|exact Logic.I].
    destruct P2 as [Hk Hne]. split; [exact Hk|].
    pose proof (inv_one_timer w I) as Hl. pose proof (inv_timer w I) as Ht.
    destruct (timers (host w)) as [|t [|t' ts]]; [congruence| |cbn in Hl; lia].
    destruct (Ht t (or_introl eq_refl)) as (_ & Hh & _).
    cbn. now rewrite Hh, Ep.
Qed.

End Reachable.

(** ** What an observer of the matcher sees *)

Section Observer.

Context {KN : KeyNotation}.

(** *** The [onSequenceUpdate] callback follows the buffer *)

Lemma in_sync_set (w w' : World) (s : string) :
  in_sync w ->
  onSequenceUpdate (this w') = onSequenceUpdate (this w) ->
  _sequence (this w') = s ->
  notified (log (host w')) =
    (if negb (String.eqb (_sequence (this w)) s) && onSequenceUpdate (this w)
     then [s] else []) ++ notified (log (host w)) ->
  in_sync w'.
Proof.
  unfold in_sync. intros H Hnu Hs Hn. rewrite Hnu, Hs, Hn.
  destruct (onSequenceUpdate (this w)); [|rewrite andb_false_r; exact H].
  destruct H as [Hh Hr]. rewrite andb_true_r.
  destruct (String.eqb_spec (_sequence (this w)) s) as [E|E]; cbn [negb app].
  - split; [congruence | exact Hr].
  - split; [reflexivity|].
    destruct (notified (log (host w))) as [|y rest]; cbn in Hh, Hr |- *.
    + destruct (String.eqb_spec s ""); [congruence | reflexivity].
    + rewrite Hr, Hh.
      destruct (String.eqb_spec s (_sequence (this w))); [congruence | reflexivity].
Qed.

Lemma in_sync_same (w w' : World) :
  in_sync w ->
  onSequenceUpdate (this w') = onSequenceUpdate (this w) ->
  _sequence (this w') = _sequence (this w) ->
  notified (log (host w')) = notified (log (host w)) ->
  in_sync w'.
Proof. unfold in_sync. intros H Hnu Hs Hn. rewrite Hnu, Hs, Hn. exact H. Qed.

Lemma in_sync_resetWorld w : in_sync w -> in_sync (resetWorld w).
Proof.
  intros H. apply (in_sync_set w _ ""); [exact H | reflexivity | reflexivity |].
  unfold resetWorld. cbn. unfold notified. cbn. rewrite flat_map_app.
  destruct (_ && _); reflexivity.
Qed.

Lemma in_sync_invokedWorld bm w : in_sync w -> in_sync (invokedWorld bm w).
Proof.
  intros H. apply (in_sync_same w); [exact H | reflexivity | reflexivity |].
  unfold invokedWorld. cbn. unfold notified. rewrite flat_map_app.
  destruct (bm_command bm (bm_event bm)); reflexivity.
Qed.

Lemma in_sync_accumulatedWorld e w :
  falsy (stringify e) = false -> in_sync w -> in_sync (accumulatedWorld e w).
Proof.
  intros Hv H.
  apply (in_sync_set w _ (_sequence (this w) ++ stringify e));
    [exact H | reflexivity | reflexivity |].
  rewrite falsy_false_append by assumption. cbn [negb andb].
  unfold accumulatedWorld. cbn. unfold notified. cbn. rewrite flat_map_app.
  destruct (onSequenceUpdate (this w)); reflexivity.
Qed.

Lemma in_sync_handleKeydown d e : forall w,
  in_sync w -> in_sync (snd (handleKeydown d e w)).
Proof.
  induction d as [|d IH]; intros w H; [exact H|].
  destruct (isTrusted e) eqn:H1;
    [|rewrite handleKeydown_untrusted by assumption; exact H].
  destruct (falsy (stringify e)) eqn:H2;
    [rewrite handleKeydown_unwritable by assumption; exact H|].
  destruct (isComposing e) eqn:H3.
  { rewrite handleKeydown_composing by assumption. cbn [snd].
    apply in_sync_resetWorld. apply (in_sync_same w); auto. }
  rewrite handleKeydown_pass by assumption. cbn zeta.
  pose proof (in_sync_accumulatedWorld e w H2 H) as H'.
  set (w1 := accumulatedWorld e w) in *. clearbody w1. unfold JSSet.size.
  assert (Ha : in_sync (armedWorld e w1)) by (apply (in_sync_same w1); auto).
  destruct (prevBestMatchCommand (this w1)) as [bm|];
    destruct (filtered (this w1)) as [|k1 [|k2 f']];
    cbn [List.length Nat.ltb Nat.leb Nat.eqb snd];
    try apply IH; auto using in_sync_resetWorld, in_sync_invokedWorld.
Qed.

Lemma notified_app l1 l2 : notified (l1 ++ l2) = notified l1 ++ notified l2.
Proof. apply flat_map_app. Qed.

Lemma notified_errors (g : BindingError -> string) errors :
  notified (rev (map (fun error => LoggerError (g error)) errors)) = [].
Proof.
  induction errors as [|x errors IH]; [reflexivity|].
  cbn [map rev]. rewrite notified_app, IH. reflexivity.
Qed.

Lemma notified_bindLog entries : forall l,
  notified (fold_left bindLog entries l) = notified l.
Proof.
  induction entries as [|x entries IH]; intros l; [reflexivity|].
  cbn [fold_left]. rewrite IH. unfold bindLog.
  destruct (normalizeSequence (fst x)) as [|errors]; [reflexivity|].
  now rewrite notified_app, notified_errors.
Qed.

Lemma in_sync_emitChangeWorld w : in_sync w -> in_sync (emitChangeWorld w).
Proof.
  intros H. unfold emitChangeWorld. destruct (_ =? _)%nat.
  - apply (in_sync_same (resetWorld w)); auto using in_sync_resetWorld.
  - apply (in_sync_same w); auto.
Qed.

Lemma in_sync_exec a w : in_sync w -> in_sync (exec a w).
Proof.
  intros H. unfold exec. destruct a as [e|entries|sequences| |id]; cbn [step].
  - unfold dispatchEvent, bind_eff, gets_host, when.
    destruct (listening (host w)); [now apply in_sync_handleKeydown | exact H].
  - unfold bind_eff at 1. rewrite bind_eq. cbn [snd ret].
    apply in_sync_emitChangeWorld.
    destruct (bound_fields entries (this w)) as (Hs & _ & _ & _ & Hnu).
    apply (in_sync_same w); auto.
    unfold boundWorld. cbn. unfold notified at 1. cbn.
    apply notified_bindLog.
  - rewrite unbind_eq. cbn [snd]. apply in_sync_emitChangeWorld.
    destruct (unbound_fields sequences (this w)) as (Hs & _ & _ & _ & Hnu).
    apply (in_sync_same w); auto.
  - rewrite reset_eq. cbn [snd]. apply in_sync_emitChangeWorld.
    apply (in_sync_same w); auto.
  - rewrite fireTimer_eq. destruct (find _ _) as [t|]; [|exact H].
    assert (He : in_sync (expiredWorld id w)) by (apply (in_sync_same w); auto).
    destruct (timer_handler t); cbn [snd];
      auto using in_sync_resetWorld, in_sync_invokedWorld.
Qed.

(** X6.  The [onSequenceUpdate] callback is called exactly on changes of
    the buffer.  In every reachable world of a matcher with a callback,
    the last sequence the callback received is the current buffer (and
    the buffer is empty if it never received one), and no call repeats
    the value of the call before it; a matcher without a callback
    notifies nothing. *)
Theorem callback_follows_buffer (options : option MousetrapOptions)
    (actions : list Action) :
  let w := run actions (new_World options) in
  if onSequenceUpdate (this w) then
    hd "" (notified (log (host w))) = _sequence (this w)
    /\ no_repeat (notified (log (host w)) ++ [""]) = true
  else notified (log (host w)) = [].
Proof.
  intros w. change (in_sync w). unfold w. clear w.
  assert (H : forall acts w0, in_sync w0 -> in_sync (run acts w0)).
  { induction acts as [|a acts IH]; intros w0 H0; [exact H0|].
    change (run (a :: acts) w0) with (run acts (exec a w0)).
    apply IH, in_sync_exec, H0. }
  apply H. unfold in_sync. cbn.
  destruct options as [[[] ?]|]; cbn; auto.
Qed.

End Observer.

(** ** Suppressed events and called commands *)

Section Suppression.

Context {KN : KeyNotation}.

Lemma prevented_app l1 l2 : prevented (l1 ++ l2) = prevented l1 ++ prevented l2.
Proof. apply flat_map_app. Qed.

Lemma stopped_app l1 l2 : stopped (l1 ++ l2) = stopped l1 ++ stopped l2.
Proof. apply flat_map_app. Qed.

Lemma suppressed_resetWorld w :
  prevented (log (host (resetWorld w))) = prevented (log (host w))
  /\ stopped (log (host (resetWorld w))) = stopped (log (host w)).
Proof.
  unfold resetWorld. cbn. unfold prevented, stopped. cbn.
  rewrite !flat_map_app. destruct (_ && _); auto.
Qed.

Lemma suppressed_invokedWorld bm w :
  prevented (log (host (invokedWorld bm w))) = prevented (log (host w))
  /\ stopped (log (host (invokedWorld bm w))) = stopped (log (host w)).
Proof.
  unfold invokedWorld. cbn. unfold prevented, stopped.
  rewrite !flat_map_app. destruct (bm_command bm (bm_event bm)); auto.
Qed.

Lemma suppressed_accumulatedWorld e w :
  prevented (log (host (accumulatedWorld e w))) = prevented (log (host w))
  /\ stopped (log (host (accumulatedWorld e w))) = stopped (log (host w)).
Proof.
  unfold accumulatedWorld. cbn. unfold prevented, stopped. cbn.
  rewrite !flat_map_app. destruct (onSequenceUpdate (this w)); auto.
Qed.

Lemma suppresses_reset e w w0 :
  (forall t, In t (timers (host w0)) -> timer (this w0) = Some (timer_id t)) ->
  prevented (log (host w0)) = prevented (log (host w)) ->
  stopped (log (host w0)) = stopped (log (host w)) ->
  suppresses e w (resetWorld w0).
Proof.
  intros Ht Hp Hs. unfold suppresses. rewrite timers_resetWorld by assumption.
  destruct (suppressed_resetWorld w0) as [-> ->]. now rewrite Hp, Hs.
Qed.

Lemma suppresses_armed e w w1 :
  prevented (log (host w1)) = prevented (log (host w)) ->
  stopped (log (host w1)) = stopped (log (host w)) ->
  suppresses e w (armedWorld e w1).
Proof.
  intros Hp Hs. unfold suppresses.
  assert (Ht : timers (host (armedWorld e w1)) <> [])
    by (cbn; destruct (timers (host w1)); discriminate).
  destruct (timers (host (armedWorld e w1))); [congruence|].
  change (prevented (log (host (armedWorld e w1))))
    with (e :: prevented (log (host w1))).
  change (stopped (log (host (armedWorld e w1))))
    with (e :: stopped (log (host w1))).
  now rewrite Hp, Hs.
Qed.

Lemma suppresses_handleKeydown d e : forall w,
  Inv w -> isTrusted e = true -> falsy (stringify e) = false ->
  suppresses e w (snd (handleKeydown (S d) e w)).
Proof.
  induction d as [|d IH]; intros w I H1 H2.
  all: destruct (isComposing e) eqn:H3;
    [ rewrite handleKeydown_composing by assumption; cbn [snd];
      apply suppresses_reset; [|reflexivity..];
      cbn; intros t Ht; apply (inv_timer w I);
      destruct (timer (this w)); [apply filter_In in Ht; tauto | exact Ht]
    | ].
  all: rewrite handleKeydown_pass by assumption; cbn zeta.
  all: pose proof (timers_accumulatedWorld e w I) as Hts.
  all: destruct (suppressed_accumulatedWorld e w) as [Hp Hs].
  all: assert (I1 : forall bm, Inv (resetWorld (invokedWorld bm (accumulatedWorld e w))))
    by (intros bm; apply Inv_resetWorld;
        cbn [invokedWorld this host timers with_log listening];
        rewrite ?Hts; try (intros ? []); apply I).
  all: assert (R1 : forall bm,
               suppresses e w (resetWorld (invokedWorld bm (accumulatedWorld e w))))
    by (intros bm; destruct (suppressed_invokedWorld bm (accumulatedWorld e w))
                     as [Ep Es];
        apply suppresses_reset; [|congruence..];
        cbn [invokedWorld this host timers with_log]; rewrite Hts; intros ? []).
  all: assert (R2 : suppresses e w (resetWorld (accumulatedWorld e w)))
    by (apply suppresses_reset; [rewrite Hts; intros ? []|assumption..]).
  all: assert (R3 : suppresses e w (armedWorld e (accumulatedWorld e w)))
    by (apply suppresses_armed; assumption).
  all: set (w1 := accumulatedWorld e w) in *; clearbody w1; unfold JSSet.size.
  all: destruct (prevBestMatchCommand (this w1)) as [bm|];
    destruct (filtered (this w1)) as [|k1 [|k2 f']];
    cbn [List.length Nat.ltb Nat.leb Nat.eqb snd]; auto.
  - (* the replay with no budget left: the world is the reset one *)
    cbn [handleKeydown snd]. apply R1.
  - (* the replay *)
    specialize (IH _ (I1 bm) H1 H2). specialize (R1 bm).
    unfold suppresses in *. destruct IH as [-> ->], R1 as [R1p R1s].
    rewrite R1p, R1s.
    rewrite timers_resetWorld
      by (cbn [invokedWorld this host timers with_log]; rewrite Hts; intros ? []).
    auto.
Qed.

(** X7.  The default action is suppressed exactly when the event leaves a
    sequence pending.  In every reachable world, a trusted event with a
    writable key that reaches the listener gets [preventDefault] and
    [stopPropagation] called once each if a timer is armed when
    [handleKeydown] returns, and not at all otherwise (the event fired a
    command by itself, matched nothing, or was a composition event);
    untrusted and unwritable events are never suppressed. *)
Theorem default_prevented_iff_pending (options : option MousetrapOptions)
    (actions : list Action) (e : KeyboardEvent) :
  let w := run actions (new_World options) in
  let w' := exec (Keydown e) w in
  let suppressed :=
    if listening (host w) && isTrusted e && negb (falsy (stringify e))
    then match timers (host w') with [] => [] | _ :: _ => [e] end
    else [] in
  prevented (log (host w')) = suppressed ++ prevented (log (host w))
  /\ stopped (log (host w')) = suppressed ++ stopped (log (host w)).
Proof.
  intros w w' suppressed. pose proof (Inv_reachable options actions) as I.
  fold w in I. unfold suppressed, w', exec. cbn [step].
  unfold dispatchEvent, bind_eff, gets_host, when, max_depth.
  destruct (listening (host w)); cbn [andb snd ret]; [|auto].
  destruct (isTrusted e) eqn:H1; cbn [andb];
    [|rewrite handleKeydown_untrusted by assumption; auto].
  destruct (falsy (stringify e)) eqn:H2; cbn [negb];
    [rewrite handleKeydown_unwritable by assumption; auto|].
  apply suppresses_handleKeydown; assumption.
Qed.

(** *** How many commands one event can call *)

Lemma calls_at_most_one_from_empty_holder d e w :
  prevBestMatchCommand (this w) = None ->
  exists called,
    invocations (log (host (snd (handleKeydown (S d) e w)))) =
      called ++ invocations (log (host w))
    /\ (List.length called <= 1)%nat.
Proof.
  intros Hp.
  destruct (isTrusted e) eqn:H1;
    [|rewrite handleKeydown_untrusted by assumption; exists []; auto].
  destruct (falsy (stringify e)) eqn:H2;
    [rewrite handleKeydown_unwritable by assumption; exists []; auto|].
  destruct (isComposing e) eqn:H3.
  { rewrite handleKeydown_composing by assumption. cbn [snd].
    rewrite invocations_resetWorld. exists []. auto. }
  rewrite handleKeydown_pass by assumption. cbn zeta.
  pose proof (invocations_accumulatedWorld e w) as Hi.
  set (w1 := accumulatedWorld e w) in *.
  assert (Hprev : prevBestMatchCommand (this w1) =
                  if (0 <? JSSet.size (filtered (this w1)))%nat
                  then exactMatch (bindings (this w))
                         (_sequence (this w) ++ stringify e) e
                         (filtered (this w)) None
                  else prevBestMatchCommand (this w)) by reflexivity.
  clearbody w1. rewrite Hp in Hprev. unfold JSSet.size in *.
  destruct (filtered (this w1)) as [|k1 [|k2 f']]; cbn in Hprev; rewrite Hprev;
    [|destruct (exactMatch _ _ _ _ _) as [bm|]..];
    cbn [List.length Nat.ltb Nat.leb Nat.eqb snd];
    rewrite ?invocations_resetWorld, ?invocations_invokedWorld,
      ?invocations_armedWorld, Hi.
  all: try (exists []; split; [reflexivity | cbn; lia]).
  exists [(bm_command bm, bm_event bm)]. auto.
Qed.

(** X8.  One key event calls at most two commands, and two only on a
    replay.  Whatever the world, [handleKeydown] only adds to the calls
    made so far; it adds at most one call when the Best-Match Holder is
    empty at the start and at most two otherwise; an expiring timer adds
    at most one. *)
Theorem at_most_two_commands (e : KeyboardEvent) (id : nat) (w : World) :
  (exists called,
     invocations (log (host (exec (Keydown e) w))) =
       called ++ invocations (log (host w))
     /\ (List.length called <=
         match prevBestMatchCommand (this w) with
         | None => 1
         | Some _ => 2
         end)%nat)
  /\ (exists called,
       invocations (log (host (exec (TimerFires id) w))) =
         called ++ invocations (log (host w))
       /\ (List.length called <= 1)%nat).
Proof.
  split.
  - unfold exec. cbn [step]. unfold dispatchEvent, bind_eff, gets_host, when.
    destruct (listening (host w)); cbn [snd ret];
      [|exists []; split; [reflexivity | destruct (prevBestMatchCommand _); cbn; lia]].
    unfold max_depth.
    destruct (prevBestMatchCommand (this w)) as [bm0|] eqn:Hp;
      [|now apply calls_at_most_one_from_empty_holder].
    destruct (isTrusted e) eqn:H1;
      [|rewrite handleKeydown_untrusted by assumption; exists []; cbn; auto].
    destruct (falsy (stringify e)) eqn:H2;
      [rewrite handleKeydown_unwritable by assumption; exists []; cbn; auto|].
    destruct (isComposing e) eqn:H3.
    { rewrite handleKeydown_composing by assumption. cbn [snd].
      rewrite invocations_resetWorld. exists []. cbn. auto. }
    rewrite handleKeydown_pass by assumption. cbn zeta.
    pose proof (invocations_accumulatedWorld e w) as Hi.
    set (w1 := accumulatedWorld e w) in *. clearbody w1. unfold JSSet.size.
    destruct (prevBestMatchCommand (this w1)) as [bm|];
      destruct (filtered (this w1)) as [|k1 [|k2 f']];
      cbn [List.length Nat.ltb Nat.leb Nat.eqb snd];
      rewrite ?invocations_resetWorld, ?invocations_invokedWorld,
        ?invocations_armedWorld, ?Hi.
    all: try (exists []; split; [reflexivity | cbn; lia]).
    all: try (exists [(bm_command bm, bm_event bm)]; split;
              [reflexivity | cbn; lia]).
    (* the replay: the held command, then at most one more *)
    destruct (calls_at_most_one_from_empty_holder 0 e
                (resetWorld (invokedWorld bm w1)) eq_refl)
      as (called & Hc & Hl).
    exists (called ++ [(bm_command bm, bm_event bm)]). split.
    + rewrite Hc, invocations_resetWorld, invocations_invokedWorld, Hi.
      now rewrite <- app_assoc.
    + rewrite length_app. cbn. lia.
  - unfold exec. cbn [step]. rewrite fireTimer_eq.
    destruct (find _ _) as [t|]; [|exists []; auto].
    destruct (timer_handler t) as [bm|]; cbn [snd];
      rewrite invocations_resetWorld, ?invocations_invokedWorld.
    + exists [(bm_command bm, bm_event bm)]. auto.
    + exists []. auto.
Qed.

End Suppression.

(** ** How the methods compose *)

Section Composition.

Context {KN : KeyNotation}.

Lemma cleared_idempotent id ts : cleared id (cleared id ts) = cleared id ts.
Proof.
  destruct id as [n|]; [|reflexivity]. cbn. rewrite filter_filter_and.
  apply filter_ext. intros t. now rewrite andb_diag.
Qed.

(** X9.  [reset] is idempotent: a second [reset] right after a [reset]
    changes nothing of the object nor of the host but the debug log; in
    particular it calls no command and notifies no sequence.  After a
    [reset] the table is empty and the listener is removed. *)
Theorem reset_is_idempotent (w : World) :
  let w1 := exec Reset w in
  let w2 := exec Reset w1 in
  this w2 = this w1
  /\ timers (host w2) = timers (host w1)
  /\ nextTimerId (host w2) = nextTimerId (host w1)
  /\ listening (host w2) = listening (host w1)
  /\ invocations (log (host w2)) = invocations (log (host w1))
  /\ notified (log (host w2)) = notified (log (host w1))
  /\ bindings (this w1) = []
  /\ listening (host w1) = false.
Proof.
  cbn zeta. unfold exec. cbn [step]. rewrite !reset_eq. cbn [snd].
  unfold emitChangeWorld. cbn [this bindings with_bindings JSMap.size JSMap.empty
                                List.length Nat.eqb host].
  split; [reflexivity|]. split.
  { cbn. apply cleared_idempotent. }
  split; [reflexivity|]. split; [reflexivity|].
  split.
  { repeat (cbn [host with_listening log]; rewrite invocations_resetWorld).
    reflexivity. }
  split; [|split; reflexivity].
  cbn. unfold notified. cbn. reflexivity.
Qed.

Lemma delete_set {V} (n : string) (v : V) (b : JSMap.t V) :
  JSMap.delete n (JSMap.set n v b) = JSMap.delete n b.
Proof.
  unfold JSMap.delete. induction b as [|[k0 v0] b IH]; cbn.
  - now rewrite String.eqb_refl.
  - destruct (String.eqb_spec k0 n) as [->|Hne]; cbn.
    + now rewrite String.eqb_refl.
    + destruct (String.eqb_spec k0 n); [contradiction|]. cbn. now rewrite IH.
Qed.

Lemma delete_absent {V} (n : string) (b : JSMap.t V) :
  JSMap.get n b = None -> JSMap.delete n b = b.
Proof.
  unfold JSMap.delete. induction b as [|[k0 v0] b IH]; cbn; [reflexivity|].
  destruct (String.eqb_spec k0 n); [discriminate|]. cbn. intros H.
  now rewrite IH.
Qed.

Lemma has_delete_same n f : JSSet.has n (JSSet.delete n f) = false.
Proof. rewrite has_delete, String.eqb_refl. apply andb_false_r. Qed.

(** X10.  [unbind] undoes [bind].  Binding a sequence that normalises and
    then unbinding it leaves the table as it was without the canonical
    sequence: exactly the table before when that sequence was not bound,
    and in any case the sequence is no longer bound and no longer a
    candidate. *)
Theorem unbind_undoes_bind (S : string) (C : Command) (n : string) (w : World) :
  normalizeSequence S = Ok n ->
  let w2 := snd (unbind [S] (snd (bind1 S C w))) in
  bindings (this w2) = JSMap.delete n (bindings (this w))
  /\ JSMap.get n (bindings (this w2)) = None
  /\ JSSet.has n (filtered (this w2)) = false
  /\ match JSMap.get n (bindings (this w)) with
     | None => bindings (this w2) = bindings (this w)
     | Some _ => True
     end.
Proof.
  intros Hn w2.
  assert (Hb : bindings (this (snd (bind1 S C w))) = JSMap.set n C (bindings (this w))).
  { unfold bind1. rewrite bind_eq. cbn [snd]. unfold emitChangeWorld.
    destruct (_ =? _)%nat; cbn; unfold bindStep; cbn [fst snd]; now rewrite Hn. }
  assert (H2 : bindings (this w2) = JSMap.delete n (bindings (this w))).
  { unfold w2. rewrite unbind_eq. cbn [snd]. unfold emitChangeWorld.
    destruct (_ =? _)%nat; cbn; unfold unbindStep; rewrite Hn; cbn;
      rewrite Hb; apply delete_set. }
  split; [exact H2|]. split; [|split].
  - rewrite H2, JSMapFacts.get_delete. now rewrite String.eqb_refl.
  - unfold w2. rewrite unbind_eq. cbn [snd]. unfold emitChangeWorld.
    destruct (JSMap.size _ =? 0)%nat eqn:E.
    + cbn [this resetWorld filtered with_filtered].
      rewrite (JSMapFacts.size_0_keys _ E). reflexivity.
    + cbn. unfold unbindStep. rewrite Hn. cbn. apply has_delete_same.
  - destruct (JSMap.get n (bindings (this w))) eqn:E; [exact I|].
    rewrite H2. now apply delete_absent.
Qed.

End Composition.

(** ** A shadowed sequence fires when its timer expires *)

Section Timeout.

Context {KN : KeyNotation}.

(** Typing a bound sequence that a longer bound sequence extends: every
    token, the last one too, leaves at least two candidates and arms the
    timer. *)
Lemma feed_shadowed (n : string) (C : Command) (k : string)
    (e : KeyboardEvent) es : forall w,
  Inv w ->
  forallb isKeyToken (es ++ [e]) = true ->
  (_sequence (this w) ++ typed (es ++ [e]))%string = n ->
  JSMap.get n (bindings (this w)) = Some C ->
  In k (JSMap.keys (bindings (this w))) ->
  startsWith k n = true ->
  k <> n ->
  fst (feed (es ++ [e]) w) = Normal tt
  /\ _sequence (this (snd (feed (es ++ [e]) w))) = n
  /\ prevBestMatchCommand (this (snd (feed (es ++ [e]) w))) =
     Some {| bm_key := n; bm_command := C; bm_event := e |}
  /\ timers (host (snd (feed (es ++ [e]) w))) <> []
  /\ bindings (this (snd (feed (es ++ [e]) w))) = bindings (this w)
  /\ flushInterval (this (snd (feed (es ++ [e]) w))) = flushInterval (this w)
  /\ invocations (log (host (snd (feed (es ++ [e]) w)))) =
     invocations (log (host w)).
Proof.
  induction es as [|e0 es IH]; intros w I Hk Hn Hget Hin Hpre Hne.
  - cbn [app] in *. cbn in Hk. rewrite andb_true_r in Hk.
    apply isKeyToken_true in Hk as (H1 & H2 & H3).
    cbn in Hn. rewrite append_empty_r in Hn.
    assert (Hnk : In n (JSMap.keys (bindings (this w))))
      by (eapply JSMapFacts.get_In_keys; eassumption).
    assert (Hc1 : candidates_consistent (this (accumulatedWorld e w)))
      by (intros x; apply (narrowed_consistent (this w)), I).
    assert (Hn1 : In n (filtered (this (accumulatedWorld e w)))).
    { apply Hc1. split; [exact Hnk|]. cbn. rewrite Hn. apply startsWith_refl. }
    assert (Hk1 : In k (filtered (this (accumulatedWorld e w)))).
    { apply Hc1. split; [exact Hin|]. cbn. now rewrite Hn. }
    pose proof (two_distinct _ _ _ Hk1 Hn1 Hne) as Hlen.
    assert (Hp : prevBestMatchCommand (this (accumulatedWorld e w)) =
                 Some {| bm_key := n; bm_command := C; bm_event := e |}).
    { change (prevBestMatchCommand (this (accumulatedWorld e w)))
        with (if (0 <? JSSet.size (filtered (this (accumulatedWorld e w))))%nat
              then exactMatch (bindings (this w))
                     (_sequence (this w) ++ stringify e) e (filtered (this w)) None
              else prevBestMatchCommand (this w)).
      unfold JSSet.size.
      destruct (List.length (filtered (this (accumulatedWorld e w)))); [lia|].
      cbn [Nat.ltb Nat.leb]. rewrite Hn, exactMatch_general, Hget.
      assert (JSSet.has n (filtered (this w)) = true) as ->; [|reflexivity].
      apply JSSetFacts.has_In, (inv_filtered w I). split; [assumption|].
      rewrite <- Hn. apply startsWith_append. }
    assert (Hfeed : feed [e] w =
                    (Normal tt, armedWorld e (accumulatedWorld e w))).
    { unfold feed. cbn [forOf]. unfold bind_eff at 1. unfold max_depth.
      rewrite handleKeydown_pass by assumption. cbn zeta. rewrite Hp.
      unfold JSSet.size.
      destruct (List.length (filtered (this (accumulatedWorld e w))))
        as [|[|len]]; try lia. reflexivity. }
    rewrite Hfeed. cbn [fst snd].
    split; [reflexivity|]. split; [exact Hn|]. split; [exact Hp|].
    split; [cbn; destruct (cleared _ _); discriminate|].
    split; [reflexivity|]. split; [reflexivity|].
    now rewrite invocations_armedWorld, invocations_accumulatedWorld.
  - cbn [app forallb] in Hk. apply andb_true_iff in Hk as [Hk0 Hk].
    apply isKeyToken_true in Hk0 as (H1 & H2 & H3).
    change (typed ((e0 :: es) ++ [e]))
      with (stringify e0 ++ typed (es ++ [e]))%string in Hn.
    rewrite <- append_assoc in Hn.
    set (s' := (_sequence (this w) ++ stringify e0)%string) in *.
    assert (Hnk : In n (JSMap.keys (bindings (this w))))
      by (eapply JSMapFacts.get_In_keys; eassumption).
    assert (Hc1 : candidates_consistent (this (accumulatedWorld e0 w)))
      by (intros x; apply (narrowed_consistent (this w)), I).
    assert (Hn1 : In n (filtered (this (accumulatedWorld e0 w)))).
    { apply Hc1. split; [exact Hnk|]. cbn. fold s'. rewrite <- Hn.
      apply startsWith_append. }
    assert (Hk1 : In k (filtered (this (accumulatedWorld e0 w)))).
    { apply Hc1. split; [exact Hin|]. cbn. fold s'.
      apply (startsWith_shorter k s' (typed (es ++ [e]))). now rewrite Hn. }
    pose proof (two_distinct _ _ _ Hk1 Hn1 Hne) as Hlen.
    assert (Hpass : handleKeydown max_depth e0 w =
                    (Normal tt, armedWorld e0 (accumulatedWorld e0 w))).
    { unfold max_depth. rewrite handleKeydown_pass by assumption. cbn zeta.
      unfold JSSet.size.
      destruct (List.length (filtered (this (accumulatedWorld e0 w))))
        as [|[|len]]; try lia.
      destruct (prevBestMatchCommand (this (accumulatedWorld e0 w))); reflexivity. }
    assert (Hfeed : feed ((e0 :: es) ++ [e]) w =
                    feed (es ++ [e]) (armedWorld e0 (accumulatedWorld e0 w))).
    { unfold feed. cbn [app forOf]. unfold bind_eff at 1. now rewrite Hpass. }
    rewrite Hfeed.
    assert (I1 : Inv (armedWorld e0 (accumulatedWorld e0 w))).
    { pose proof (Inv_handleKeydown max_depth e0 w I) as I1.
      now rewrite Hpass in I1. }
    destruct (IH (armedWorld e0 (accumulatedWorld e0 w)) I1 Hk Hn Hget Hin Hpre Hne)
      as (R1 & R2 & R3 & R4 & R5 & R6 & R7).
    rewrite R5, R6, R7, invocations_armedWorld, invocations_accumulatedWorld.
    repeat split; auto.
Qed.

Lemma Inv_feed es : forall w, Inv w -> Inv (snd (feed es w)).
Proof.
  unfold feed. induction es as [|x es IH]; intros w I; [exact I|].
  cbn [forOf]. unfold bind_eff at 1.
  pose proof (Inv_handleKeydown max_depth x w I) as Ix.
  pose proof (proj2 (handleKeydown_depth 0 x w)) as Hx.
  destruct (handleKeydown max_depth x w) as [r wx]. cbn in Hx, Ix. subst r.
  now apply IH.
Qed.

(** X11.  The timeout path.  Let [bind(S, C)] be called on a reachable
    world with an empty buffer, let [S] normalise and let another bound
    sequence start with the canonical form of [S].  Then typing the key
    tokens of that canonical form calls nothing, leaves it in the buffer
    and arms exactly one timer, with the interval given to the
    constructor; when that timer expires [C] is called exactly once, with
    the last event, and the matcher is Idle. *)
Theorem shadowed_sequence_fires_on_timeout (options : option MousetrapOptions)
    (actions : list Action) (S : string) (C : Command) (k : string)
    (es : list KeyboardEvent) (e : KeyboardEvent) :
  let w := run actions (new_World options) in
  let w1 := snd (bind1 S C w) in
  let w2 := snd (feed (es ++ [e]) w1) in
  _sequence (this w) = "" ->
  normalizeSequence S = Ok (typed (es ++ [e])) ->
  forallb isKeyToken (es ++ [e]) = true ->
  In k (JSMap.keys (bindings (this w1))) ->
  startsWith k (typed (es ++ [e])) = true ->
  k <> typed (es ++ [e]) ->
  invocations (log (host w2)) = invocations (log (host w1))
  /\ _sequence (this w2) = typed (es ++ [e])
  /\ exists t,
       timers (host w2) = [t]
       /\ timer_delay t = flushInterval (new_Mousetrap options)
       /\ let w3 := exec (TimerFires (timer_id t)) w2 in
          invocations (log (host w3)) = (C, e) :: invocations (log (host w1))
          /\ Idle w3.
Proof.
  intros w w1 w2 Hs Hn Hk Hin Hpre Hne.
  assert (I : Inv w) by apply Inv_reachable.
  assert (I1 : Inv w1) by (apply Inv_bind, I).
  assert (Hm : this w1 = bindStep (this w) (S, C)).
  { unfold w1, bind1. rewrite bind_eq. cbn [snd]. unfold emitChangeWorld.
    destruct (JSMap.size (bindings (this (boundWorld [(S, C)] w))) =? 0)%nat eqn:E;
      [|reflexivity].
    exfalso. revert E. cbn. unfold bindStep. cbn [fst]. rewrite Hn. cbn.
    destruct (bindings (this w)) as [|[k0 v0] b]; cbn; [discriminate|].
    destruct (String.eqb k0 _); discriminate. }
  assert (Hs1 : _sequence (this w1) = "")
    by (rewrite Hm; unfold bindStep; cbn [fst]; rewrite Hn; exact Hs).
  assert (Hfi : flushInterval (this w1) = flushInterval (new_Mousetrap options)).
  { rewrite Hm. unfold bindStep. cbn [fst]. rewrite Hn. cbn.
    unfold w. apply flushInterval_run. }
  assert (Hget : JSMap.get (typed (es ++ [e])) (bindings (this w1)) = Some C).
  { rewrite Hm. unfold bindStep. cbn [fst snd]. rewrite Hn. cbn.
    now rewrite JSMapFacts.get_set, String.eqb_refl. }
  destruct (feed_shadowed (typed (es ++ [e])) C k e es w1 I1 Hk)
    as (R1 & R2 & R3 & R4 & R5 & R6 & R7); auto.
  { now rewrite Hs1. }
  fold w2 in R2, R3, R4, R5, R6, R7.
  assert (I2 : Inv w2) by (apply Inv_feed, I1).
  split; [exact R7|]. split; [exact R2|].
  pose proof (inv_one_timer w2 I2) as Hl. pose proof (inv_timer w2 I2) as Ht.
  destruct (timers (host w2)) as [|t [|t' ts]] eqn:Ets; [congruence| |cbn in Hl; lia].
  destruct (Ht t (or_introl eq_refl)) as (_ & Hh & Hd).
  exists t. split; [reflexivity|]. split; [now rewrite Hd, R6|].
  cbn zeta. unfold exec. cbn [step]. rewrite fireTimer_eq, Ets. cbn [find].
  rewrite Nat.eqb_refl, Hh, R3. cbn [orBackToInitial snd].
  split.
  - rewrite invocations_resetWorld, invocations_invokedWorld.
    cbn [expiredWorld host with_timers log]. now rewrite R7.
  - apply Idle_resetWorld. cbn [invokedWorld this host timers with_log expiredWorld].
    rewrite Ets. cbn. rewrite Nat.eqb_refl. cbn. intros ? [].
Qed.

End Timeout.

(** ** The earlier [checkKeyBindings] and the normaliser *)

Section LegacyCheck.

Context {KN : KeyNotation}.

Lemma sequenceErrors_eq sequence :
  sequenceErrors sequence =
  match parseSequence sequence with
  | None => [InvalidSequenceError]
  | Some keys => keyErrors keys
  end.
Proof.
  unfold sequenceErrors, normalizeSequence.
  destruct (parseSequence sequence) as [keys|]; [|reflexivity].
  rewrite normalize_fold. cbn [app]. destruct (keyErrors keys); reflexivity.
Qed.

Lemma normalizeSequence_Ok sequence keys :
  parseSequence sequence = Some keys -> keyErrors keys = [] ->
  normalizeSequence sequence = Ok (keyTokens keys).
Proof.
  intros Hp He. unfold normalizeSequence. rewrite Hp, normalize_fold, He.
  reflexivity.
Qed.

Lemma legacy_fold sequence keys : forall acc (errors : list (string * string)),
  fold_left
    (fun '(acc, errors) k =>
       match normalize k with
       | Err e => (acc, errors ++ [(sequence, message (OfKeyError e))])
       | Ok v => ((acc ++ v)%string, errors)
       end)
    keys (acc, errors)
  = ((acc ++ keyTokens keys)%string,
     errors ++ map (fun error => (sequence, message error)) (keyErrors keys)).
Proof.
  induction keys as [|k keys IH]; intros acc errors.
  - cbn. now rewrite append_empty_r, app_nil_r.
  - cbn [fold_left]. unfold keyTokens, keyErrors in *. cbn [fold_right flat_map].
    destruct (normalize k) as [v|e]; rewrite IH.
    + now rewrite append_assoc.
    + cbn [app map]. now rewrite <- app_assoc.
Qed.

Lemma checkOne_eq entry errors commands :
  Legacy.checkOne entry (errors, commands) =
  (errors ++ map (fun error => (fst entry, message error))
               (sequenceErrors (fst entry)),
   match parseSequence (fst entry) with
   | None => commands
   | Some keys => JSMap.set (keyTokens keys) (snd entry) commands
   end).
Proof.
  destruct entry as [sequence command]. unfold Legacy.checkOne. cbn [fst snd].
  rewrite sequenceErrors_eq.
  destruct (parseSequence sequence) as [keys|]; [|reflexivity].
  now rewrite legacy_fold.
Qed.

Lemma check_loop entries : forall errors commands,
  exists commands',
    fold_left (fun locals entry => Legacy.checkOne entry locals) entries
      (errors, commands) = (errors ++ batchErrors entries, commands')
    /\ (batchErrors entries = [] ->
        commands' =
        fold_left (fun b nc => JSMap.set (fst nc) (snd nc) b) (successes entries)
          commands).
Proof.
  induction entries as [|x entries IH]; intros errors commands.
  - exists commands. cbn. now rewrite app_nil_r.
  - cbn [fold_left]. rewrite checkOne_eq.
    destruct (IH (errors ++ map (fun error => (fst x, message error))
                              (sequenceErrors (fst x)))
                 (match parseSequence (fst x) with
                  | None => commands
                  | Some keys => JSMap.set (keyTokens keys) (snd x) commands
                  end)) as (commands' & Hf & Hc).
    exists commands'. split.
    + rewrite Hf. unfold batchErrors. cbn [flat_map]. now rewrite app_assoc.
    + unfold batchErrors. cbn [flat_map]. intros Hnil.
      apply app_eq_nil in Hnil as [Hx Hrest].
      apply map_eq_nil in Hx. rewrite Hc by exact Hrest.
      unfold successes. cbn [flat_map].
      rewrite sequenceErrors_eq in Hx.
      destruct (parseSequence (fst x)) as [keys|] eqn:Hp; [|discriminate].
      rewrite (normalizeSequence_Ok _ _ Hp Hx). reflexivity.
Qed.

(** X12.  The earlier [checkKeyBindings] and [normalizeSequence] agree.
    [checkKeyBindings] answers the error list exactly when some sequence
    of the batch fails [normalizeSequence], and then the list holds, entry
    by entry and in order, the messages of the errors that
    [normalizeSequence] finds, each paired with the raw sequence;
    otherwise it answers the map from the canonical sequences to their
    commands, a later entry overwriting an earlier one with the same
    canonical sequence. *)
Theorem checkKeyBindings_reports_normalizer_errors
    (entries : list (string * Command)) :
  Legacy.checkKeyBindings entries =
  match batchErrors entries with
  | [] =>
      Ok (fold_left (fun b nc => JSMap.set (fst nc) (snd nc) b)
            (successes entries) JSMap.empty)
  | errors => Err errors
  end.
Proof.
  unfold Legacy.checkKeyBindings.
  destruct (check_loop entries [] JSMap.empty) as (commands' & Hf & Hc).
  rewrite Hf. cbn [app].
  destruct (batchErrors entries) as [|x errors]; [|reflexivity].
  cbn. now rewrite Hc.
Qed.

Lemma find_rev_unique (m : JSMap.t Command) k :
  NoDup (JSMap.keys m) ->
  match find (fun nc => String.eqb (fst nc) k) (rev m) with
  | Some nc => Some (snd nc)
  | None => None
  end = JSMap.get k m.
Proof.
  induction m as [|[k0 v0] m IH]; intros Hnd; [reflexivity|].
  inversion Hnd as [|? ? Hnot Hnd']; subst.
  cbn [rev JSMap.get]. rewrite find_app_last. cbn [fst snd].
  destruct (String.eqb_spec k0 k) as [->|Hne].
  - assert (JSMap.get k m = None) as Hg by now apply JSMapFacts.get_None_keys.
    rewrite <- (IH Hnd') in Hg.
    destruct (find _ (rev m)); [discriminate | reflexivity].
  - rewrite <- (IH Hnd'). destruct (find _ (rev m)); reflexivity.
Qed.

Lemma NoDup_fold_set (l : list (string * Command)) : forall b,
  NoDup (JSMap.keys b) ->
  NoDup (JSMap.keys (fold_left (fun b nc => JSMap.set (fst nc) (snd nc) b) l b)).
Proof.
  induction l as [|x l IH]; intros b Hb; [exact Hb|].
  cbn [fold_left]. apply IH. now apply JSMapFacts.NoDup_keys_set.
Qed.

Lemma legacy_loop (commands : JSMap.t Command) : forall w,
  exists w',
    forOf commands
      (fun '(sequence, command) (_ : unit) =>
         b <- gets bindings ;;
         modify (with_bindings (JSMap.set sequence command b)) ;;
         current <- currentSequence ;;
         when (startsWith sequence current)
              (f <- gets filtered ;;
               modify (with_filtered (JSSet.add sequence f))))
      tt w = (Normal tt, w')
    /\ bindings (this w') =
       fold_left (fun b nc => JSMap.set (fst nc) (snd nc) b) commands
         (bindings (this w))
    /\ host w' = host w.
Proof.
  induction commands as [|[sequence command] commands IH]; intros w.
  - exists w. auto.
  - cbn [forOf]. unfold bind_eff at 1.
    set (w1 := {| this :=
                    with_filtered
                      (if startsWith sequence (_sequence (this w))
                       then JSSet.add sequence (filtered (this w))
                       else filtered (this w))
                      (with_bindings
                         (JSMap.set sequence command (bindings (this w))) (this w));
                  host := host w |}).
    assert (Hstep :
      (b <- gets bindings ;;
       modify (with_bindings (JSMap.set sequence command b)) ;;
       current <- currentSequence ;;
       when (startsWith sequence current)
            (f <- gets filtered ;;
             modify (with_filtered (JSSet.add sequence f)))) w = (Normal tt, w1)).
    { subst w1. destruct w as [[nu fi b s p f t] h].
      unfold currentSequence, bind_eff, gets, when, modify, ret. cbn.
      destruct (startsWith sequence s); reflexivity. }
    rewrite Hstep. destruct (IH w1) as (w' & Hf & Hb & Hh).
    exists w'. auto.
Qed.

(** X13.  On a batch without errors the earlier [bind] and the latest
    [bind] agree: both report no error and both leave the same command at
    every canonical sequence of the table. *)
Theorem legacy_bind_agrees_on_success (entries : list (string * Command))
    (w : World) (k : string) :
  batchErrors entries = [] ->
  fst (Legacy.bind entries w) = Normal []
  /\ fst (bind entries w) = Normal JSMap.empty
  /\ JSMap.get k (bindings (this (snd (Legacy.bind entries w)))) =
     JSMap.get k (bindings (this (snd (bind entries w)))).
Proof.
  intros Hnil.
  set (commands := fold_left (fun b nc => JSMap.set (fst nc) (snd nc) b)
                     (successes entries) JSMap.empty).
  assert (Hck : Legacy.checkKeyBindings entries = Ok commands).
  { unfold Legacy.checkKeyBindings.
    destruct (check_loop entries [] JSMap.empty) as (commands' & Hf & Hc).
    rewrite Hf, Hnil. cbn. now rewrite Hc. }
  assert (Hall : forallb (fun entry => normalizes (fst entry)) entries = true).
  { clear -Hnil. induction entries as [|x entries IH]; [reflexivity|].
    unfold batchErrors in Hnil. cbn [flat_map] in Hnil.
    apply app_eq_nil in Hnil as [Hx Hrest]. apply map_eq_nil in Hx.
    cbn [forallb]. rewrite (IH Hrest), andb_true_r.
    rewrite sequenceErrors_eq in Hx. unfold normalizes.
    destruct (parseSequence (fst x)) as [keys|] eqn:Hp; [|discriminate].
    now rewrite (normalizeSequence_Ok _ _ Hp Hx). }
  assert (Hb : bindings (this (snd (bind entries w))) =
               fold_left (fun b nc => JSMap.set (fst nc) (snd nc) b)
                 (successes entries) (bindings (this w))).
  { rewrite bind_eq. cbn [snd]. rewrite <- bound_bindings.
    unfold emitChangeWorld. destruct (_ =? _)%nat; reflexivity. }
  assert (Hl : exists w',
             Legacy.bind entries w = (Normal [], w')
             /\ bindings (this w') =
                fold_left (fun b nc => JSMap.set (fst nc) (snd nc) b) commands
                  (bindings (this w))).
  { unfold Legacy.bind. rewrite Hck.
    destruct (legacy_loop commands w) as (w1 & Hf & Hb1 & Hh1).
    unfold bind_eff at 1. rewrite Hf.
    unfold bind_eff at 1. cbn [logger_debug emit modify_host].
    unfold bind_eff at 1. rewrite emitChange_eq.
    eexists. split; [reflexivity|]. rewrite <- Hb1.
    unfold emitChangeWorld. cbn [this host with_log].
    destruct (_ =? _)%nat; reflexivity. }
  destruct Hl as (w' & Hl & Hb').
  split; [now rewrite Hl|]. split.
  - rewrite bind_eq. cbn [fst]. f_equal.
    pose proof (report_empty entries JSMap.empty) as Hr.
    rewrite Hall in Hr. cbn in Hr.
    destruct (fold_left bindReport entries JSMap.empty); [reflexivity | discriminate].
  - rewrite Hl. cbn [snd]. rewrite Hb', Hb, !fold_set_get.
    assert (Hnd : NoDup (JSMap.keys commands))
      by (apply NoDup_fold_set; constructor).
    pose proof (find_rev_unique commands k Hnd) as Hfind.
    unfold commands at 2 in Hfind. rewrite fold_set_get in Hfind.
    cbn [JSMap.get JSMap.empty] in Hfind.
    destruct (find _ (rev commands)) as [nc|];
      destruct (find _ (rev (successes entries))) as [nc'|];
      try discriminate; try reflexivity.
    now injection Hfind as ->.
Qed.

End LegacyCheck.

(** ** The earlier revisions of [unbind] and [handleKeydown] *)

Section Revisions.

Context {KN : KeyNotation}.

Lemma unbind_loop_canonicals sequences : forall w,
  forOf sequences unbindOne tt w =
  forOf (canonicals sequences)
    (fun key (_ : unit) =>
       b <- gets bindings ;;
       modify (with_bindings (JSMap.delete key b)) ;;
       f <- gets filtered ;;
       modify (with_filtered (JSSet.delete key f)))
    tt w.
Proof.
  induction sequences as [|sequence sequences IH]; intros w; [reflexivity|].
  unfold canonicals. cbn [forOf flat_map]. fold (canonicals sequences).
  unfold unbindOne at 1.
  destruct (normalizeSequence sequence) as [normalized|errors].
  - cbn [app forOf]. unfold bind_eff at 1 3. cbn [gets].
    unfold bind_eff at 1 3. cbn [modify].
    unfold bind_eff at 1 3. cbn [gets].
    unfold bind_eff at 1 2. cbn [modify]. apply IH.
  - cbn [app]. unfold bind_eff at 1. cbn [ret]. apply IH.
Qed.

(** X14.  The latest [unbind] is the earlier one applied to the canonical
    forms of the arguments that normalise: it differs from the earlier
    revision only by normalising first and skipping what fails. *)
Theorem unbind_normalises_first (sequences : list string) (w : World) :
  unbind sequences w = Legacy.unbind (canonicals sequences) w.
Proof.
  unfold unbind, Legacy.unbind. unfold bind_eff at 1 2.
  now rewrite unbind_loop_canonicals.
Qed.

Lemma legacy_handleKeydown_other depth e :
  String.eqb (key e) "Process" = false ->
  Legacy.handleKeydown depth e = handleKeydown depth e.
Proof.
  intros Hk. induction depth as [|depth IH]; [reflexivity|].
  cbn [Legacy.handleKeydown handleKeydown]. rewrite Hk, orb_false_r, IH.
  reflexivity.
Qed.

(** X15.  The earlier [handleKeydown] differs from the latest one on one
    kind of event only: a trusted, written, non-composing event whose key
    is "Process" cancels the timer and resets, where the latest revision
    handles it as a key; on every other event the two agree. *)
Theorem process_key_resets_in_earlier_revision
    (depth : nat) (e : KeyboardEvent) (w : World) :
  Legacy.handleKeydown (S depth) e w =
  if isTrusted e && negb (falsy (stringify e)) && negb (isComposing e)
     && String.eqb (key e) "Process"
  then (Normal tt,
        resetWorld
          {| this := this w;
             host := with_timers (cleared (timer (this w)) (timers (host w)))
                       (host w) |})
  else handleKeydown (S depth) e w.
Proof.
  destruct (String.eqb (key e) "Process") eqn:Hk.
  - rewrite andb_true_r. cbn [Legacy.handleKeydown handleKeydown].
    rewrite Hk, orb_true_r.
    destruct (isTrusted e); cbn [negb andb]; [|reflexivity].
    destruct (falsy (stringify e)); cbn [negb andb]; [reflexivity|].
    destruct (isComposing e); cbn [negb].
    + reflexivity.
    + eff_simpl. eff_step clearTimeout_eq. apply backToInitial_eq.
  - rewrite andb_false_r. now rewrite legacy_handleKeydown_other.
Qed.

End Revisions.

(** ** Instances of the conditional properties *)

Lemma unbind_undoes_bind_witness :
  JSMap.get "gg"
    (bindings
       (this (snd (unbind (KN := plainKeys) ["gg"]
                     (snd (bind1 (KN := plainKeys) "gg" cmd_ok
                             (new_World None)))))))
  = None.
Proof.
  refine (proj1 (proj2
    (unbind_undoes_bind (KN := plainKeys) "gg" cmd_ok "gg" (new_World None) _))).
  reflexivity.
Defined.

Lemma shadowed_sequence_fires_on_timeout_witness :
  let w1 := snd (bind1 (KN := plainKeys) "d" cmd_ok
                   (run_plain [Bind [("dd", cmd_other)]] (new_World None))) in
  _sequence (this (snd (feed (KN := plainKeys) [press "d"] w1))) = "d".
Proof.
  refine (proj1 (proj2
    (shadowed_sequence_fires_on_timeout (KN := plainKeys) None
       [Bind [("dd", cmd_other)]] "d" cmd_ok "dd" [] (press "d")
       _ _ _ _ _ _))).
  - reflexivity.
  - reflexivity.
  - reflexivity.
  - vm_compute. left. reflexivity.
  - reflexivity.
  - discriminate.
Defined.

Lemma legacy_bind_agrees_on_success_witness :
  fst (Legacy.bind (KN := plainKeys) d_and_dd (new_World None)) = Normal [].
Proof.
  refine (proj1
    (legacy_bind_agrees_on_success (KN := plainKeys) d_and_dd (new_World None)
       "d" _)).
  reflexivity.
Defined.
